(** * Verification of the report parser of car-damage-analyzer (src/app.py)

    The development embeds [parse_analysis] and its helpers
    [translate_severity], [extract_value] and [estimate_cost] together with
    the fragment of Python's [re] module they rely on, and states the
    properties of the specification over that embedding.

    Python strings are sequences of Unicode code points; they are modelled
    as [list N].  Dictionaries with computed keys are [gmap]s. *)

From Stdlib Require Import NArith Ascii String.
From stdpp Require Import base option list strings gmap.

Local Open Scope N_scope.

(** ** Strings *)

Abbreviation str := (list N).

(** The source file is UTF-8 encoded; a string literal of the source denotes
    the code points its bytes decode to.  [utf8_go] is that decoder, so that
    literals can be written here exactly as they stand in [app.py]. *)
Fixpoint utf8_go (bs : list N) (acc : N) (need : nat) : str :=
  match bs with
  | [] => []
  | b :: bs' =>
      match need with
      | S n =>
          let acc' := acc * 64 + b mod 64 in
          match n with
          | O => acc' :: utf8_go bs' 0 O
          | S _ => utf8_go bs' acc' n
          end
      | O =>
          if b <? 0x80 then b :: utf8_go bs' 0 O
          else if b <? 0xE0 then utf8_go bs' (b mod 32) 1%nat
          else if b <? 0xF0 then utf8_go bs' (b mod 16) 2%nat
          else utf8_go bs' (b mod 8) 3%nat
      end
  end.

Definition py (s : string) : str :=
  utf8_go (List.map N_of_ascii (list_ascii_of_string s)) 0 O.

Definition NL : N := 10.

(** ** The Unicode tables of the Python runtime *)

(** [str.isspace] on one code point; also the class [\s] of [re] on [str]
    patterns. *)
Definition isspace (c : N) : bool :=
  ((0x09 <=? c) && (c <=? 0x0D)) || ((0x1C <=? c) && (c <=? 0x20))
  || (c =? 0x85) || (c =? 0xA0) || (c =? 0x1680)
  || ((0x2000 <=? c) && (c <=? 0x200A))
  || (c =? 0x2028) || (c =? 0x2029) || (c =? 0x202F) || (c =? 0x205F)
  || (c =? 0x3000).

Definition is_ascii_upper (c : N) : bool := (0x41 <=? c) && (c <=? 0x5A).

(** Full lower-case mapping of one code point, as used by [str.lower].  The
    table is restricted to the code points whose image contains an ASCII
    letter: the ASCII capitals, U+0130 (capital I with dot above, which
    lowers to "i" followed by U+0307) and U+212A (Kelvin sign).  Every other
    code point is left alone.  The program only compares lowered strings
    with the ASCII words minor, moderate, severe and with three words in
    Arabic script, which is caseless, so the outcome of each comparison is
    the one of the full table. *)
Definition lower_full (c : N) : str :=
  if is_ascii_upper c then [c + 32]
  else if c =? 0x130 then [0x69; 0x307]
  else if c =? 0x212A then [0x6B]
  else [c].

(** [s.lower()] *)
Definition str_lower (s : str) : str := flat_map lower_full s.

(** [s.strip()] *)
Fixpoint lstrip (s : str) : str :=
  match s with
  | c :: s' => if isspace c then lstrip s' else s
  | [] => []
  end.
Definition rstrip (s : str) : str := reverse (lstrip (reverse s)).
Definition strip (s : str) : str := rstrip (lstrip s).

(** [s.split(sep)] for a one-character separator: always at least one
    piece. *)
Fixpoint split_on (sep : N) (s : str) : list str :=
  match s with
  | [] => [[]]
  | c :: s' =>
      if c =? sep then [] :: split_on sep s'
      else match split_on sep s' with
           | [] => [[c]]
           | p :: ps => (c :: p) :: ps
           end
  end.

(** ** Severity normalisation and cost bands *)

Definition MISSING : str := py "---".

Definition severity_map : gmap str str :=
  list_to_map
    [(py "minor", py "جزئی");
     (py "moderate", py "متوسط");
     (py "severe", py "شدید");
     (py "جزئی", py "جزئی");
     (py "متوسط", py "متوسط");
     (py "شدید", py "شدید")].

(** [severity_map.get(severity.lower(), severity)] *)
Definition translate_severity (severity : str) : str :=
  default severity (severity_map !! str_lower severity).

Definition costs : gmap str str :=
  list_to_map
    [(py "minor", py "1-2 میلیون تومان");
     (py "moderate", py "3-5 میلیون تومان");
     (py "severe", py "6-10 میلیون تومان")].

(** [costs.get(severity.lower(), "---")] *)
Definition estimate_cost (severity : str) : str :=
  default MISSING (costs !! str_lower severity).

(** ** The fragment of [re] used by the program

    The five patterns of [app.py] use literals, the classes [.], [\s] and
    [[\s\S]], greedy and lazy stars over one of these classes, sequencing,
    alternation, capture groups, the look-ahead [(?=...)] and the anchors
    [\Z] and [$].  The matcher below is a backtracking matcher with the
    priorities of [re]: left alternative first, longest first for a greedy
    star, shortest first for a lazy one. *)

Inductive cclass :=
| CLit (c : N)   (* a literal character *)
| CDot           (* .      : anything but a newline (no DOTALL) *)
| CSpace         (* \s *)
| CAll.          (* [\s\S] *)

Inductive regex :=
| Eps                              (* the empty pattern *)
| Chr (k : cclass)
| Rep (k : cclass) (lazy : bool)   (* k* and k*? *)
| Cat (r1 r2 : regex)
| Alt (r1 r2 : regex)
| Grp (i : nat) (r : regex)        (* the i-th capture group *)
| Ahead (r : regex)                (* (?=r) *)
| EndZ                             (* \Z *)
| Dollar.                          (* $ (no MULTILINE) *)

Infix "⋅" := Cat (at level 41, right associativity).

(** One-character lower-casing of the matcher ([Py_UNICODE_TOLOWER]) and the
    compiler's table of lower-case letters sharing an upper case, restricted
    as [lower_full] is to what can meet an ASCII letter: U+0130 and U+212A
    lower to i and k; i goes with dotless i (U+0131), s with long s
    (U+017F). *)
Definition unicode_tolower (c : N) : N :=
  if is_ascii_upper c then c + 32
  else if c =? 0x130 then 0x69
  else if c =? 0x212A then 0x6B
  else c.

Definition is_ascii_lower (c : N) : bool := (0x61 <=? c) && (c <=? 0x7A).

Definition unicode_iscased (c : N) : bool :=
  is_ascii_upper c || is_ascii_lower c
  || (c =? 0x130) || (c =? 0x131) || (c =? 0x17F) || (c =? 0x212A).

Definition ignorecase_fixes (lo : N) : list N :=
  if lo =? 0x69 then [0x131]
  else if lo =? 0x131 then [0x69]
  else if lo =? 0x73 then [0x17F]
  else if lo =? 0x17F then [0x73]
  else [].

(** A literal [p] of the pattern against the character [c] of the text.
    Under IGNORECASE the compiler lowers a cased literal and the matcher
    lowers the character. *)
Definition lit_match (ic : bool) (p c : N) : bool :=
  if ic && unicode_iscased p then
    let lo := unicode_tolower p in
    existsb (N.eqb (unicode_tolower c)) (lo :: ignorecase_fixes lo)
  else c =? p.

Definition cmatch (ic : bool) (k : cclass) (c : N) : bool :=
  match k with
  | CLit p => lit_match ic p c
  | CDot => negb (c =? NL)
  | CSpace => isspace c
  | CAll => true
  end.

Abbreviation caps := (gmap nat str).

Section Matcher.
Variable ic : bool.   (* re.IGNORECASE *)

(** [cont] receives the rest of the text. *)
Fixpoint rep_greedy (k : cclass) (s : str)
    (cont : str → option (str * caps)) : option (str * caps) :=
  match s with
  | c :: s' =>
      if cmatch ic k c then
        match rep_greedy k s' cont with
        | Some x => Some x
        | None => cont s
        end
      else cont s
  | [] => cont []
  end.

Fixpoint rep_lazy (k : cclass) (s : str)
    (cont : str → option (str * caps)) : option (str * caps) :=
  match cont s with
  | Some x => Some x
  | None =>
      match s with
      | c :: s' => if cmatch ic k c then rep_lazy k s' cont else None
      | [] => None
      end
  end.

Fixpoint rmatch (r : regex) (s : str) (g : caps)
    (cont : str → caps → option (str * caps)) : option (str * caps) :=
  match r with
  | Eps => cont s g
  | Chr k =>
      match s with
      | c :: s' => if cmatch ic k c then cont s' g else None
      | [] => None
      end
  | Rep k lazy =>
      (if lazy then rep_lazy else rep_greedy) k s (fun s' => cont s' g)
  | Cat r1 r2 => rmatch r1 s g (fun s' g' => rmatch r2 s' g' cont)
  | Alt r1 r2 =>
      match rmatch r1 s g cont with
      | Some x => Some x
      | None => rmatch r2 s g cont
      end
  | Grp i r =>
      rmatch r s g
        (fun s' g' => cont s' (<[i := take (length s - length s') s]> g'))
  | Ahead r =>
      match rmatch r s g (fun s' g' => Some (s', g')) with
      | Some (_, g') => cont s g'
      | None => None
      end
  | EndZ => match s with [] => cont s g | _ :: _ => None end
  | Dollar =>
      match s with
      | [] => cont s g
      | [c] => if c =? NL then cont s g else None
      | _ => None
      end
  end.

(** A match attempt at the head of [s]: the text after the match and the
    groups. *)
Definition match_here (r : regex) (s : str) : option (str * caps) :=
  rmatch r s ∅ (fun s' g => Some (s', g)).

(** [re.search]: the first position with a match. *)
Fixpoint search (r : regex) (s : str) : option caps :=
  match match_here r s with
  | Some (_, g) => Some g
  | None =>
      match s with
      | [] => None
      | _ :: s' => search r s'
      end
  end.

(** The matches [re.findall] collects, left to right and not overlapping:
    after a match of [n] characters the next attempt is [n] characters
    further ([skip] counts the characters still covered by the last
    match).  After an empty match the scan moves on by one character. *)
Fixpoint finditer (r : regex) (s : str) (skip : nat) : list caps :=
  match skip with
  | S n =>
      match s with
      | [] => []
      | _ :: s' => finditer r s' n
      end
  | O =>
      match match_here r s with
      | Some (rest, g) =>
          g :: match s with
               | [] => []
               | _ :: s' => finditer r s' (length s - length rest - 1)
               end
      | None =>
          match s with
          | [] => []
          | _ :: s' => finditer r s' O
          end
      end
  end.
End Matcher.

(** [m.group(i)] for a group that took part in the match. *)
Definition group (m : caps) (i : nat) : str := default [] (m !! i).

(** A run of literal characters. *)
Fixpoint lits (s : str) : regex :=
  match s with
  | [] => Eps
  | c :: s' => Chr (CLit c) ⋅ lits s'
  end.
Definition lit (s : string) : regex := lits (py s).

Definition greedy := false.
Definition lazy := true.

(** ** Python values and exceptions *)

(** [parse_analysis] receives what the model client returned: text, or
    [None] when the reply carries no text.  [re.search] raises [TypeError]
    on [None]. *)
Inductive pyval := PStr (s : str) | PNone.
Inductive exn := TypeError.

#[global] Instance exn_ret : MRet (sum exn) := fun _ x => inr x.
#[global] Instance exn_bind : MBind (sum exn) := fun _ _ f m =>
  match m with inl e => inl e | inr x => f x end.

Definition re_search (ic : bool) (r : regex) (v : pyval) : exn + option caps :=
  match v with
  | PStr s => inr (search ic r s)
  | PNone => inl TypeError
  end.

(** ** extract_value *)

(** The pattern [rf"{key.strip()}:\s*(.*?)(?=\n|$)"].  The key is spliced
    into the pattern; every key the program passes is made of letters and
    spaces, which the pattern compiler reads as literals. *)
Definition value_re (key : str) : regex :=
  lits (strip key) ⋅ lit ":" ⋅ Rep CSpace greedy ⋅ Grp 1 (Rep CDot lazy)
  ⋅ Ahead (Alt (Chr (CLit NL)) Dollar).

(** The keys for which [value_re] is the pattern the program compiles:
    ASCII letters and spaces stand for themselves in a pattern, and
    IGNORECASE compares them as [lit_match] does.  A key with a character
    that the pattern syntax reads otherwise (a dot, a parenthesis, ...) or
    with a cased letter outside ASCII is outside the model. *)
Definition literal_key (key : str) : bool :=
  forallb (fun c => is_ascii_upper c || is_ascii_lower c || (c =? 32)) key.

Fixpoint extract_value_loop (text : pyval) (keys : list str) : exn + str :=
  match keys with
  | [] => mret MISSING
  | key :: keys' =>
      m ← re_search true (value_re key) text;
      match m with
      | Some m => mret (strip (group m 1))
      | None => extract_value_loop text keys'
      end
  end.

Definition extract_value (text : pyval) (keys : string) : exn + str :=
  extract_value_loop text (split_on 124 (py keys)).

(** ** parse_analysis *)

Record damage := {
  part : str;
  type : str;
  severity : str;
  action : str;
  cost : str
}.

(** The dictionary of the normal return; [vehicle] is a dictionary that is
    filled only when the vehicle section is found. *)
Record analysis := {
  vehicle : gmap string str;
  damages : list damage;
  total_cost : str;
  repair_time : str;
  safety_status : str;
  content : pyval
}.

(** What [parse_analysis] returns: the six-key dictionary, or the
    dictionary [{"content": content}] of the [except] branch. *)
Inductive report :=
| Report (a : analysis)
| ContentOnly (content : pyval).

(** [r"###\s*n\.\s*w1\s*w2\n([\s\S]*?)(?=\n###|\Z)"] *)
Definition section_re (n w1 w2 : string) : regex :=
  lit "###" ⋅ Rep CSpace greedy ⋅ lit n ⋅ Chr (CLit 46) ⋅ Rep CSpace greedy
  ⋅ lit w1 ⋅ Rep CSpace greedy ⋅ lit w2 ⋅ Chr (CLit NL)
  ⋅ Grp 1 (Rep CAll lazy)
  ⋅ Ahead (Alt (Chr (CLit NL) ⋅ lit "###") EndZ).

Definition vehicle_re : regex := section_re "1" "Vehicle" "Identification".
Definition damages_re : regex := section_re "2" "Damage" "Assessment".

(** [r"- (.*?) \((.*?)\) - (minor|moderate|severe|جزئی|متوسط|شدید)"] *)
Definition damage_item_re : regex :=
  lit "- " ⋅ Grp 1 (Rep CDot lazy) ⋅ lit " (" ⋅ Grp 2 (Rep CDot lazy)
  ⋅ lit ") - "
  ⋅ Grp 3 (Alt (lit "minor") (Alt (lit "moderate") (Alt (lit "severe")
          (Alt (lit "جزئی") (Alt (lit "متوسط") (lit "شدید")))))).

(** [r"safe to drive: yes|safe: yes"] *)
Definition safe_re : regex := Alt (lit "safe to drive: yes") (lit "safe: yes").

Definition REPLACE : str := py "تعویض".
Definition REPAIR : str := py "تعمیر".
Definition SAFE : str := py "ایمن".
Definition UNSAFE : str := py "غیر ایمن".

(** The body of the [for] loop, for one tuple of [re.findall]. *)
Definition damage_of (part damage_type severity : str) : damage :=
  {| part := strip part;
     type := strip damage_type;
     severity := translate_severity severity;
     action := if decide (str_lower severity ∈ [py "severe"; py "شدید"])
               then REPLACE else REPAIR;
     cost := estimate_cost severity |}.

(** [re.findall] with the three groups of [damage_item_re]. *)
Definition damage_items (text : str) : list (str * str * str) :=
  (fun m => (group m 1, group m 2, group m 3))
    <$> finditer false damage_item_re text 0.

(** The body of the [try] block. *)
Definition parse_analysis_try (content : pyval) : exn + analysis :=
  vehicle_match ← re_search true vehicle_re content;
  vehicle ← match vehicle_match with
            | Some m =>
                let vehicle_info := PStr (group m 1) in
                make ← extract_value vehicle_info "make|manufacturer";
                model ← extract_value vehicle_info "model";
                year ← extract_value vehicle_info "year";
                plate ← extract_value vehicle_info "license plate|plate";
                mret (<["plate" := plate]> (<["year" := year]>
                     (<["model" := model]> (<["make" := make]> ∅))))
            | None => mret ∅
            end;
  damages_match ← re_search true damages_re content;
  let damages :=
    match damages_match with
    | Some m =>
        (fun '(part, damage_type, severity) =>
           damage_of part damage_type severity) <$> damage_items (group m 1)
    | None => []
    end in
  total_cost ← extract_value content "total estimated repair cost|total cost";
  repair_time ← extract_value content "estimated repair timeline|repair time";
  safe_match ← re_search true safe_re content;
  mret {| vehicle := vehicle;
          damages := damages;
          total_cost := total_cost;
          repair_time := repair_time;
          safety_status := match safe_match with
                           | Some _ => SAFE
                           | None => UNSAFE
                           end;
          content := content |}.

(** [try: ... except Exception: return {"content": content}] (the message
    printed by the handler is not modelled). *)
Definition parse_analysis (content : pyval) : report :=
  match parse_analysis_try content with
  | inr a => Report a
  | inl _ => ContentOnly content
  end.

Definition scenario_A : str := py
"### 1. Vehicle Identification
Make: Toyota
Model: Camry
Year: 2019
License Plate: ABC123
### 2. Damage Assessment
- Front Bumper (Cracked) - severe
- Hood (Dented) - minor
Total Estimated Repair Cost: 5000
Estimated Repair Timeline: 3 days
Safe to drive: yes".

(** Text without any structure. *)
Definition prose : str := py "The bumper looks fine, nothing else to report.".

(** A damage section with the same severity in both languages. *)
Definition mixed_tokens : str := py
"### 2. Damage Assessment
- Hood (Dented) - minor
- Door (Scratched) - جزئی".

(** A label without value, followed by another line. *)
Definition empty_make : str := py
"Make:
Model: Camry".

(** Scenario C: a damage line with a localized severity word. *)
Definition scenario_C : str := py
"### 2. Damage Assessment
- Rear Door (Scratched) - شدید
- Mirror (Broken) - متوسط".

(** ** Notions used in the statements *)

(** The loop of [extract_value] on text, without the exception plumbing. *)
Fixpoint first_value (text : str) (keys : list str) : str :=
  match keys with
  | [] => MISSING
  | key :: keys' =>
      match search true (value_re key) text with
      | Some m => strip (group m 1)
      | None => first_value text keys'
      end
  end.

(** The four entries [parse_analysis] stores for a vehicle section. *)
Definition vehicle_of (vehicle_info : str) : gmap string str :=
  <["plate" := first_value vehicle_info (split_on 124 (py "license plate|plate"))]>
  (<["year" := first_value vehicle_info (split_on 124 (py "year"))]>
  (<["model" := first_value vehicle_info (split_on 124 (py "model"))]>
  (<["make" := first_value vehicle_info (split_on 124 (py "make|manufacturer"))]>
   ∅))).


(** [p] occurs at the head of [s], character by character, exactly
    ([ic = false]) or as IGNORECASE compares characters ([ic = true]). *)
Fixpoint starts_with (ic : bool) (p s : str) : bool :=
  match p, s with
  | [], _ => true
  | a :: p', c :: s' => lit_match ic a c && starts_with ic p' s'
  | _ :: _, [] => false
  end.

(** [P] holds of [s] or of one of its suffixes. *)
Fixpoint anywhere (P : str → bool) (s : str) : bool :=
  P s
  || match s with
     | [] => false
     | _ :: s' => anywhere P s'
     end.

(** [p] occurs somewhere in [s]. *)
Definition contains (ic : bool) (p s : str) : bool :=
  anywhere (starts_with ic p) s.

(** The start of a section header numbered [n]: three hashes, any white
    space, the number and a dot. *)
Definition mark_here (n s : str) : bool :=
  starts_with false (py "###") s
  && starts_with false (n ++ py ".") (lstrip (drop 3 s)).

Definition has_mark (n s : str) : bool := anywhere (mark_here n) s.

(** The labels [parse_analysis] looks for in the whole text. *)
Definition LABELS : list str :=
  [py "total estimated repair cost"; py "total cost";
   py "estimated repair timeline"; py "repair time"].

(** Text without section header, without label followed by a colon and
    without safety phrase. *)
Definition plain_prose (t : str) : bool :=
  negb (has_mark (py "1") t) && negb (has_mark (py "2") t)
  && forallb (fun l => negb (contains true (l ++ py ":") t)) LABELS
  && negb (contains true (py "safe to drive: yes") t)
  && negb (contains true (py "safe: yes") t).

(** A damage line as the template writes it. *)
Definition damage_line (part damage_type sev : str) : str :=
  py "- " ++ part ++ py " (" ++ damage_type ++ py ") - " ++ sev.

(** [x] does not occur in [s]. *)
Definition no_char (x : N) (s : str) : bool :=
  forallb (fun c => negb (c =? x)) s.

(** The tables of the severity normaliser and of the cost estimator. *)
Definition ENGLISH : list str := [py "minor"; py "moderate"; py "severe"].
Definition LOCALIZED : list str := [py "جزئی"; py "متوسط"; py "شدید"].

Definition SEVERITY_TABLE : list (str * str) :=
  [(py "minor", py "جزئی"); (py "moderate", py "متوسط");
   (py "severe", py "شدید"); (py "جزئی", py "جزئی");
   (py "متوسط", py "متوسط"); (py "شدید", py "شدید")].

Definition COST_TABLE : list (str * str) :=
  [(py "minor", py "1-2 میلیون تومان");
   (py "moderate", py "3-5 میلیون تومان");
   (py "severe", py "6-10 میلیون تومان")].

(** ** Template text *)

(** Damage lines, each followed by a newline, and then [tail]. *)
Fixpoint damage_block (items : list (str * str * str)) (tail : str) : str :=
  match items with
  | [] => tail
  | (part, damage_type, sev) :: items' =>
      damage_line part damage_type sev ++ NL :: damage_block items' tail
  end.

(** What a part and a damage type of the template must not contain to be
    read back: a newline, and the parenthesis that ends them. *)
Definition clean_item (item : str * str * str) : bool :=
  let '(part, damage_type, sev) := item in
  no_char NL part && no_char 40 part
  && no_char NL damage_type && no_char 41 damage_type
  && bool_decide (sev ∈ ENGLISH ++ LOCALIZED).

(** A value of the template: it begins with a character other than white
    space and has no newline, no colon and no hash. *)
Definition clean_value (v : str) : bool :=
  match v with c :: _ => negb (isspace c) | [] => false end
  && no_char NL v && no_char 58 v && no_char 35 v.

(** A damage line of a whole report: as [clean_item], and part and type
    without colon and hash. *)
Definition clean_row (item : str * str * str) : bool :=
  clean_item item
  && no_char 58 item.1.1 && no_char 58 item.1.2
  && no_char 35 item.1.1 && no_char 35 item.1.2.

(** The lines of the vehicle section. *)
Definition vehicle_lines (make model year plate : str) : str :=
  py "Make: " ++ make ++ NL ::
  py "Model: " ++ model ++ NL ::
  py "Year: " ++ year ++ NL ::
  py "License Plate: " ++ plate.

(** The lines after the damage lines. *)
Definition closing_lines (total time : str) : str :=
  py "Total Estimated Repair Cost: " ++ total ++ NL ::
  py "Estimated Repair Timeline: " ++ time ++ NL ::
  py "Safe to drive: yes".

(** A report as the template writes it (the text of scenario A, with its
    values as parameters). *)
Definition report_text (make model year plate : str)
    (items : list (str * str * str)) (total time : str) : str :=
  py "### 1. Vehicle Identification" ++ NL ::
  vehicle_lines make model year plate ++ NL ::
  py "### 2. Damage Assessment" ++ NL ::
  damage_block items (closing_lines total time).

(** A value of the closing lines: as [clean_value], and without opening
    parenthesis. *)
Definition clean_total (v : str) : bool := clean_value v && no_char 40 v.

(** The end of [u] matches [L] character by character, as IGNORECASE
    compares. *)
Definition ends_ci (L u : str) : bool :=
  starts_with true (reverse L) (reverse u).

(** ** The upload filter *)

Definition ALLOWED_EXTENSIONS : gset str :=
  {[ py "png"; py "jpg"; py "jpeg"; py "gif" ]}.

(** [s.rsplit(sep, 1)] for a one-character separator: the text before the
    last separator and the text after it, or [s] alone when it has no
    separator. *)
Fixpoint rsplit1 (sep : N) (s : str) : list str :=
  match s with
  | [] => [[]]
  | c :: s' =>
      match rsplit1 sep s' with
      | [h; t] => [c :: h; t]
      | _ => if c =? sep then [[]; s'] else [c :: s']
      end
  end.

Inductive index_error := IndexError.

(** ["." in filename and filename.rsplit(".", 1)[1].lower() in
    ALLOWED_EXTENSIONS]; indexing past the end of the list raises
    [IndexError]. *)
Definition allowed_file (filename : str) : index_error + bool :=
  if bool_decide (46 ∈ filename) then
    match rsplit1 46 filename !! 1%nat with
    | Some ext => inr (bool_decide (str_lower ext ∈ ALLOWED_EXTENSIONS))
    | None => inl IndexError
    end
  else inr false.

(** ** The model clients and the request handler *)

(** What a call to a model service does: it returns a value (text, or
    [None] when the reply carries none) or raises. *)
Inductive outcome := Returns (v : pyval) | Raises.

Definition FAILED : str := py "Analysis failed. Please try again.".

Definition OPENAI_PROMPT : str := py
"As a certified automotive damage assessor, provide a detailed report including: 1. Vehicle identification 2. Damage assessment 3. Repair recommendations 4. Cost estimation 5. Safety analysis. Use professional terminology.".

Definition GEMINI_PROMPT : str := py
"Analyze this car damage image professionally. Include: vehicle details, damage assessment, repair recommendations, cost estimates, and safety analysis.".

Record upload := {
  filename : str;
  data : list N      (* the bytes of the file *)
}.

(** The length of the request body as the client declares it, with
    [request.files] and [request.form], which are parsed from that body. *)
Record request := {
  content_length : N;
  files : gmap string upload;
  form : gmap string str
}.

Definition MAX_FILE_SIZE : N := 10 * 1024 * 1024.

(** [app.config['MAX_CONTENT_LENGTH']] *)
Definition MAX_CONTENT_LENGTH : N := MAX_FILE_SIZE.

(** The bodies of the answers to [/analyze]: the two JSON bodies of the
    handler, and the error page with which the framework answers a request
    whose body is longer than [MAX_CONTENT_LENGTH]. *)
Inductive body :=
| ErrorBody (error : str)
| ReportBody (timestamp engine : str) (parsed : report)
| RequestEntityTooLarge.

Section Handler.
(** The services outside the repository: the two model calls (the text
    part and the image part of the message; the model name and the token
    limit are constants), base64, and the clock. *)
Variable openai_create : str → str → outcome.
Variable gemini_generate : str → list N → outcome.
Variable b64encode : list N → str.
Variable b64decode : str → list N.
Variable now : str.

(** [language] is not used by the body. *)
Definition analyze_with_openai (image_data language : str) : pyval :=
  match openai_create OPENAI_PROMPT (py "data:image/jpeg;base64," ++ image_data) with
  | Returns v => v
  | Raises => PStr FAILED
  end.

Definition analyze_with_gemini (image_data language : str) : pyval :=
  match gemini_generate GEMINI_PROMPT (b64decode image_data) with
  | Returns v => v
  | Raises => PStr FAILED
  end.

(** The route [/analyze]: status and body, or the exception that leaves the
    handler.  The first statement reads [request.files]; parsing the body
    for it is refused with status 413 when the body is longer than
    [MAX_CONTENT_LENGTH], before any line of the handler has an effect.
    The upload object is false when its file name is empty.  The steps of
    the inner [try] block that are modelled do not raise, so its handler
    (status 500) does not appear. *)
Definition analyze (req : request) : index_error + (nat * body) :=
  if MAX_CONTENT_LENGTH <? content_length req
  then inr (413%nat, RequestEntityTooLarge) else
  match files req !! "image" with
  | None => inr (400%nat, ErrorBody (py "No image file provided"))
  | Some file =>
      let invalid := inr (400%nat, ErrorBody (py "Invalid file format")) in
      if bool_decide (filename file = []) then invalid
      else
        match allowed_file (filename file) with
        | inl e => inl e
        | inr false => invalid
        | inr true =>
            let image_data := b64encode (data file) in
            let engine := default (py "openai") (form req !! "api") in
            let language :=
              if bool_decide (form req !! "language" = Some (py "persian"))
              then py "persian" else py "english" in
            let analysis :=
              if bool_decide (engine = py "openai")
              then analyze_with_openai image_data language
              else analyze_with_gemini image_data language in
            inr (200%nat,
                 ReportBody now
                   (if bool_decide (engine = py "openai")
                    then py "OpenAI" else py "Google Gemini")
                   (parse_analysis analysis))
        end
  end.
End Handler.

(** * Properties *)

(** ** Literals *)

Example utf8_minor_fa : py "جزئی" = [0x62c; 0x632; 0x626; 0x6cc].
Proof. reflexivity. Qed.

Example utf8_replace : REPLACE = [0x62a; 0x639; 0x648; 0x6cc; 0x636].
Proof. reflexivity. Qed.

Example translate_severity_mixed_case :
  translate_severity (py "Minor") = py "جزئی".
Proof. vm_compute. reflexivity. Qed.

Example estimate_cost_upper_case :
  estimate_cost (py "SEVERE") = py "6-10 میلیون تومان".
Proof. vm_compute. reflexivity. Qed.

(** ** What the notions of the statements mean *)

Lemma lstrip_spaces w s :
  forallb isspace w = true →
  match s with c :: _ => isspace c = false | [] => True end →
  lstrip (w ++ s) = s.
Proof.
  intros Hw Hs. induction w as [|c w IH].
  - destruct s as [|c s]; [reflexivity|]. cbn. by rewrite Hs.
  - cbn [forallb] in Hw. apply andb_true_iff in Hw as [Hc Hw].
    cbn [app lstrip]. rewrite Hc. by apply IH.
Qed.

Lemma anywhere_spec P s :
  anywhere P s = true ↔ ∃ pre post, s = pre ++ post ∧ P post = true.
Proof.
  induction s as [|c s IH]; cbn [anywhere]; rewrite orb_true_iff.
  - split.
    + intros [H|H]; [|discriminate H]. exists [], []. auto.
    + intros (pre & post & E & H). symmetry in E.
      apply app_eq_nil in E as [_ ->]. auto.
  - rewrite IH. split.
    + intros [H|(pre & post & -> & H)].
      * exists [], (c :: s). auto.
      * exists (c :: pre), post. auto.
    + intros (pre & post & E & H). destruct pre as [|c' pre].
      * cbn [app] in E. subst post. auto.
      * injection E as -> ->. right. eauto.
Qed.

Lemma starts_with_spec ic p s :
  starts_with ic p s = true
  ↔ ∃ w rest, s = w ++ rest ∧ Forall2 (fun a c => lit_match ic a c = true) p w.
Proof.
  revert s. induction p as [|a p IH]; intros s.
  - split; [|reflexivity]. intros _. exists [], s. split; [reflexivity|constructor].
  - destruct s as [|c s]; cbn [starts_with].
    + split; [discriminate|]. intros (w & rest & E & H).
      inversion H; subst. discriminate E.
    + rewrite andb_true_iff, IH. split.
      * intros (Hc & w & rest & -> & H). exists (c :: w), rest.
        split; [reflexivity|by constructor].
      * intros (w & rest & E & H). inversion H as [|? c' ? w' Hc Hw]; subst.
        injection E as -> ->. eauto.
Qed.

(** [contains ic p s]: some stretch of [s] matches [p] character by
    character. *)
Lemma contains_spec ic p s :
  contains ic p s = true
  ↔ ∃ pre w post,
      s = pre ++ w ++ post ∧ Forall2 (fun a c => lit_match ic a c = true) p w.
Proof.
  unfold contains. rewrite anywhere_spec. split.
  - intros (pre & post & -> & H). apply starts_with_spec in H as (w & rest & -> & H).
    eauto.
  - intros (pre & w & post & -> & H). exists pre, (w ++ post).
    split; [reflexivity|]. apply starts_with_spec. eauto.
Qed.

(** Without IGNORECASE a literal matches itself only. *)
Lemma lit_match_exact p c : lit_match false p c = true ↔ c = p.
Proof. unfold lit_match. cbn [andb]. apply N.eqb_eq. Qed.

(** Under IGNORECASE a lower-case ASCII letter of the pattern matches the
    characters that lower to it, and the ones that lower to the letter the
    compiler pairs it with (dotless i for i, long s for s). *)
Lemma lit_match_ignorecase a c :
  is_ascii_lower a = true →
  lit_match true a c = true
  ↔ unicode_tolower c = a ∨ unicode_tolower c ∈ ignorecase_fixes a.
Proof.
  intros Ha. unfold is_ascii_lower in Ha.
  apply andb_true_iff in Ha as [H1 H2].
  apply N.leb_le in H1. apply N.leb_le in H2.
  assert (Hc : unicode_iscased a = true).
  { unfold unicode_iscased, is_ascii_lower.
    rewrite (proj2 (N.leb_le _ _) H1), (proj2 (N.leb_le _ _) H2).
    cbn. by rewrite orb_true_r. }
  assert (Hl : unicode_tolower a = a).
  { unfold unicode_tolower, is_ascii_upper.
    replace (a <=? 90) with false by (symmetry; apply N.leb_gt; lia).
    rewrite andb_false_r.
    replace (a =? 304) with false by (symmetry; apply N.eqb_neq; lia).
    replace (a =? 8490) with false by (symmetry; apply N.eqb_neq; lia).
    reflexivity. }
  unfold lit_match. rewrite Hc. cbn [andb]. rewrite Hl.
  cbn [existsb]. rewrite orb_true_iff, N.eqb_eq.
  rewrite existsb_exists. split.
  - intros [H|(x & Hx & E)]; [by left|]. right. apply N.eqb_eq in E.
    subst x. by apply list_elem_of_In.
  - intros [H|H]; [by left|]. right. exists (unicode_tolower c).
    split; [by apply list_elem_of_In|apply N.eqb_refl].
Qed.

(** [mark_here [d] s], for a digit [d]: three hashes, white space, the
    digit and a dot. *)
Lemma mark_here_spec d s :
  isspace d = false →
  mark_here [d] s = true
  ↔ ∃ ws rest,
      s = py "###" ++ ws ++ d :: 46 :: rest ∧ forallb isspace ws = true.
Proof.
  intros Hd. unfold mark_here. rewrite andb_true_iff. split.
  - intros [H3 H].
    apply starts_with_spec in H3 as (w & rest & -> & H3).
    assert (w = py "###") as ->.
    { change (py "###") with [35; 35; 35] in *.
      repeat (inversion H3 as [|? ? ? ? Hm H3']; clear H3; subst;
              rename H3' into H3; apply lit_match_exact in Hm; subst).
      inversion H3. reflexivity. }
    change (drop 3 (py "###" ++ rest)) with rest in H.
    clear H3. induction rest as [|c rest IH]; [discriminate H|].
    cbn [lstrip] in H. destruct (isspace c) eqn:Ec.
    + destruct (IH H) as (ws & rest' & E & Hws).
      apply app_inv_head in E. subst rest.
      exists (c :: ws), rest'. cbn [forallb]. rewrite Ec, Hws. auto.
    + change ([d] ++ py ".") with [d; 46] in H.
      apply starts_with_spec in H as (w & rest' & E & H).
      inversion H as [|? c1 ? w1 Hm1 H1]; subst.
      inversion H1 as [|? c2 ? w2 Hm2 H2]; subst. inversion H2; subst.
      apply lit_match_exact in Hm1, Hm2. subst c1 c2.
      injection E as -> ->. exists [], rest'. auto.
  - intros (ws & rest & -> & Hws). split; [reflexivity|].
    change (drop 3 (py "###" ++ ws ++ d :: 46 :: rest))
      with (ws ++ d :: 46 :: rest).
    rewrite lstrip_spaces by (exact Hws || exact Hd).
    change ([d] ++ py ".") with [d; 46]. cbn [starts_with].
    unfold lit_match. cbn [andb]. by rewrite !N.eqb_refl.
Qed.

(** ** The lookup tables *)

Lemma severity_map_table k v :
  severity_map !! k = Some v ↔ (k, v) ∈ SEVERITY_TABLE.
Proof.
  unfold severity_map. symmetry. apply elem_of_list_to_map.
  apply (bool_decide_unpack _). vm_compute. exact I.
Qed.

Lemma costs_table k v : costs !! k = Some v ↔ (k, v) ∈ COST_TABLE.
Proof.
  unfold costs. symmetry. apply elem_of_list_to_map.
  apply (bool_decide_unpack _). vm_compute. exact I.
Qed.

Lemma translate_severity_hit token k v :
  str_lower token = k → (k, v) ∈ SEVERITY_TABLE → translate_severity token = v.
Proof.
  intros Hk Hin. apply severity_map_table in Hin.
  unfold translate_severity. rewrite Hk, Hin. reflexivity.
Qed.

Lemma translate_severity_miss token :
  str_lower token ∉ SEVERITY_TABLE.*1 → translate_severity token = token.
Proof.
  intros Hnot. unfold translate_severity.
  destruct (severity_map !! str_lower token) as [v|] eqn:E; [|reflexivity].
  apply severity_map_table in E. exfalso. apply Hnot.
  apply list_elem_of_fmap. exists (str_lower token, v). done.
Qed.

(** Every label of the table is mapped to itself. *)
Lemma translate_severity_label k v :
  (k, v) ∈ SEVERITY_TABLE → translate_severity v = v.
Proof.
  unfold SEVERITY_TABLE. rewrite !elem_of_cons, elem_of_nil.
  intros H. destruct_or!; try done; simplify_eq; vm_compute; reflexivity.
Qed.

(** C10: [translate_severity] is idempotent on every string. *)
Theorem translate_severity_idempotent (s : str) :
  translate_severity (translate_severity s) = translate_severity s.
Proof.
  destruct (severity_map !! str_lower s) as [v|] eqn:E.
  - assert (Hv : translate_severity s = v).
    { unfold translate_severity. rewrite E. reflexivity. }
    rewrite Hv. apply severity_map_table in E.
    eapply translate_severity_label, E.
  - assert (Hs : translate_severity s = s).
    { unfold translate_severity. rewrite E. reflexivity. }
    rewrite Hs. exact Hs.
Qed.

(** C6: [translate_severity] looks the token up by its lower-case form:
    a token whose lower-case form is one of the six recognised words gives
    the localized label of that word, whatever its casing; any other token
    is returned as it is. *)
Theorem translate_severity_spec (token : str) :
  (str_lower token = py "minor" ∨ str_lower token = py "جزئی" →
     translate_severity token = py "جزئی")
  ∧ (str_lower token = py "moderate" ∨ str_lower token = py "متوسط" →
       translate_severity token = py "متوسط")
  ∧ (str_lower token = py "severe" ∨ str_lower token = py "شدید" →
       translate_severity token = py "شدید")
  ∧ (str_lower token ∉ ENGLISH ++ LOCALIZED →
       translate_severity token = token).
Proof.
  repeat split.
  - intros [H|H]; eapply translate_severity_hit; try exact H;
      unfold SEVERITY_TABLE; rewrite !elem_of_cons; auto 10.
  - intros [H|H]; eapply translate_severity_hit; try exact H;
      unfold SEVERITY_TABLE; rewrite !elem_of_cons; auto 10.
  - intros [H|H]; eapply translate_severity_hit; try exact H;
      unfold SEVERITY_TABLE; rewrite !elem_of_cons; auto 10.
  - intros H. apply translate_severity_miss. exact H.
Qed.

Lemma translate_severity_spec_witness :
  translate_severity (py "SeVeRe") = py "شدید"
  ∧ translate_severity (py "Moderate") = py "متوسط"
  ∧ translate_severity (py "total loss") = py "total loss".
Proof.
  destruct (translate_severity_spec (py "SeVeRe")) as (_ & _ & H1 & _).
  destruct (translate_severity_spec (py "Moderate")) as (_ & H2 & _ & _).
  destruct (translate_severity_spec (py "total loss")) as (_ & _ & _ & H3).
  split; [|split].
  - apply H1. left. vm_compute. reflexivity.
  - apply H2. left. vm_compute. reflexivity.
  - apply H3. intros H. apply (bool_decide_pack _) in H.
    vm_compute in H. exact H.
Defined.

(** C4 as stated fails for [estimate_cost]: a cost band is not a severity
    word, so a second application gives the placeholder. *)
Lemma estimate_cost_not_idempotent :
  py "minor" ∈ ENGLISH
  ∧ estimate_cost (estimate_cost (py "minor")) ≠ estimate_cost (py "minor").
Proof.
  split.
  - unfold ENGLISH. apply list_elem_of_here.
  - intros H. apply (f_equal length) in H. vm_compute in H. discriminate H.
Qed.

(** C4, amended: on the three English words both functions return the entry
    of their table, [translate_severity] is idempotent, and a second
    application of [estimate_cost] gives the placeholder. *)
Theorem english_tokens_tables (t : str) :
  t ∈ ENGLISH →
  (t, translate_severity t) ∈ SEVERITY_TABLE
  ∧ translate_severity (translate_severity t) = translate_severity t
  ∧ (t, estimate_cost t) ∈ COST_TABLE
  ∧ estimate_cost (estimate_cost t) = MISSING.
Proof.
  unfold ENGLISH. rewrite !elem_of_cons, elem_of_nil.
  intros H. repeat split; destruct_or!; try done; subst t.
  all: try (apply (bool_decide_unpack _); vm_compute; exact I).
  all: vm_compute; reflexivity.
Qed.

Lemma english_tokens_tables_witness :
  (py "severe", translate_severity (py "severe")) ∈ SEVERITY_TABLE
  ∧ translate_severity (translate_severity (py "severe"))
    = translate_severity (py "severe")
  ∧ (py "severe", estimate_cost (py "severe")) ∈ COST_TABLE
  ∧ estimate_cost (estimate_cost (py "severe")) = MISSING.
Proof.
  apply (english_tokens_tables (py "severe")).
  apply (bool_decide_unpack _). vm_compute. exact I.
Defined.

(** ** The matcher on literals and stars *)

Lemma rmatch_lits ic p s g cont :
  rmatch ic (lits p) s g cont
  = if starts_with ic p s then cont (drop (length p) s) g else None.
Proof.
  revert s. induction p as [|a p IH]; intros s; [reflexivity|].
  destruct s as [|c s]; [reflexivity|].
  cbn [lits rmatch cmatch starts_with length drop].
  destruct (lit_match ic a c); [apply IH|reflexivity].
Qed.

Lemma rmatch_lits_cat ic p r s g cont :
  rmatch ic (lits p ⋅ r) s g cont
  = if starts_with ic p s then rmatch ic r (drop (length p) s) g cont
    else None.
Proof. cbn [rmatch]. apply rmatch_lits. Qed.

Lemma starts_with_app ic p q s :
  starts_with ic (p ++ q) s
  = starts_with ic p s && starts_with ic q (drop (length p) s).
Proof.
  revert s. induction p as [|a p IH]; intros s; [reflexivity|].
  destruct s as [|c s]; [reflexivity|].
  cbn [app starts_with length drop]. rewrite IH. apply andb_assoc.
Qed.

(** A star only moves over characters of its class. *)
Lemma rep_greedy_sound ic k s cont x :
  rep_greedy ic k s cont = Some x →
  ∃ w s', s = w ++ s' ∧ forallb (cmatch ic k) w = true ∧ cont s' = Some x.
Proof.
  revert x. induction s as [|c s IH]; intros x H.
  - exists [], []. auto.
  - cbn [rep_greedy] in H. destruct (cmatch ic k c) eqn:Ec.
    + destruct (rep_greedy ic k s cont) as [y|] eqn:E.
      * injection H as <-. destruct (IH _ eq_refl) as (w & s' & -> & Hw & Hc).
        exists (c :: w), s'. cbn. rewrite Ec, Hw. auto.
      * exists [], (c :: s). auto.
    + exists [], (c :: s). auto.
Qed.

Lemma rep_lazy_sound ic k s cont x :
  rep_lazy ic k s cont = Some x →
  ∃ w s', s = w ++ s' ∧ forallb (cmatch ic k) w = true ∧ cont s' = Some x.
Proof.
  revert x. induction s as [|c s IH]; intros x H; cbn [rep_lazy] in H.
  - destruct (cont []) eqn:E; [|discriminate]. exists [], []. rewrite E. auto.
  - destruct (cont (c :: s)) eqn:E.
    + exists [], (c :: s). rewrite E. auto.
    + destruct (cmatch ic k c) eqn:Ec; [|discriminate].
      destruct (IH _ H) as (w & s' & -> & Hw & Hc).
      exists (c :: w), s'. cbn. rewrite Ec, Hw. auto.
Qed.

(** ** [parse_analysis] on text *)

(** [extract_value] on text never raises: it is the first stripped capture
    among the keys, or the placeholder. *)
Lemma extract_value_loop_text t keys :
  extract_value_loop (PStr t) keys = inr (first_value t keys).
Proof.
  induction keys as [|key keys IH]; [reflexivity|].
  cbn [extract_value_loop first_value re_search mbind exn_bind].
  destruct (search true (value_re key) t); [reflexivity|apply IH].
Qed.

Lemma extract_value_text t keys :
  extract_value (PStr t) keys = inr (first_value t (split_on 124 (py keys))).
Proof. apply extract_value_loop_text. Qed.

(** On text the [try] block runs to its end. *)
Lemma parse_analysis_text t :
  ∃ a, parse_analysis (PStr t) = Report a
    ∧ vehicle a = match search true vehicle_re t with
                  | Some m => vehicle_of (group m 1)
                  | None => ∅
                  end
    ∧ damages a = match search true damages_re t with
                  | Some m =>
                      (fun '(part, damage_type, severity) =>
                         damage_of part damage_type severity)
                        <$> damage_items (group m 1)
                  | None => []
                  end
    ∧ total_cost a
      = first_value t
          (split_on 124 (py "total estimated repair cost|total cost"))
    ∧ repair_time a
      = first_value t
          (split_on 124 (py "estimated repair timeline|repair time"))
    ∧ safety_status a = match search true safe_re t with
                        | Some _ => SAFE
                        | None => UNSAFE
                        end
    ∧ content a = PStr t.
Proof.
  unfold parse_analysis, parse_analysis_try.
  cbn [re_search mbind exn_bind].
  destruct (search true vehicle_re t) as [m|];
    repeat (rewrite ?extract_value_text; cbn [mbind exn_bind mret exn_ret]);
    eexists; (split; [reflexivity|]);
    cbn [vehicle damages total_cost repair_time safety_status content];
    repeat split; reflexivity.
Qed.

(** The [except] branch is taken when [re.search] raises, that is when
    the content is not text. *)
Example parse_analysis_none : parse_analysis PNone = ContentOnly PNone.
Proof. reflexivity. Qed.

Lemma content_only_not_text v c :
  parse_analysis v = ContentOnly c → v = PNone ∧ c = PNone.
Proof.
  destruct v as [t|]; intros H.
  - destruct (parse_analysis_text t) as (a & Ha & _). congruence.
  - rewrite parse_analysis_none in H. by injection H as <-.
Qed.

(** ** The safety phrase *)

Lemma match_here_alt_lits ic p q s :
  is_Some (match_here ic (Alt (lits p) (lits q)) s)
  ↔ starts_with ic p s || starts_with ic q s = true.
Proof.
  unfold match_here. cbn [rmatch]. rewrite !rmatch_lits.
  destruct (starts_with ic p s), (starts_with ic q s); cbn;
    split; intros H; try done; try (by eexists); by destruct H.
Qed.

Lemma search_is_Some ic r s :
  is_Some (search ic r s)
  ↔ is_Some (match_here ic r s)
    ∨ match s with [] => False | _ :: s' => is_Some (search ic r s') end.
Proof.
  destruct s as [|c s]; cbn [search];
    destruct (match_here ic r _) as [[rest g]|].
  - split; [left|]; by eexists.
  - split; [intros [x Hx]; discriminate Hx|].
    intros [[x Hx]|H]; [discriminate Hx|destruct H].
  - split; [left|]; by eexists.
  - split; [by right|]. intros [[x Hx]|H]; [discriminate Hx|exact H].
Qed.

Lemma search_alt_lits ic p q s :
  is_Some (search ic (Alt (lits p) (lits q)) s)
  ↔ contains ic p s || contains ic q s = true.
Proof.
  unfold contains.
  induction s as [|c s IH]; rewrite search_is_Some, match_here_alt_lits;
    cbn [anywhere].
  - rewrite !orb_false_r. tauto.
  - rewrite IH. rewrite !orb_true_iff. tauto.
Qed.

Lemma SAFE_neq_UNSAFE : SAFE ≠ UNSAFE.
Proof. intros H. apply (f_equal length) in H. vm_compute in H. discriminate H. Qed.

(** C7: on every text the safety status is the "safe" label exactly when
    the text contains, compared as IGNORECASE compares, the phrase
    "safe to drive: yes" or the phrase "safe: yes"; otherwise it is the
    "unsafe" label. *)
Theorem safety_status_spec (t : str) :
  ∃ a, parse_analysis (PStr t) = Report a
    ∧ (safety_status a = SAFE
       ↔ contains true (py "safe to drive: yes") t
         || contains true (py "safe: yes") t = true)
    ∧ (safety_status a = UNSAFE
       ↔ contains true (py "safe to drive: yes") t
         || contains true (py "safe: yes") t = false).
Proof.
  destruct (parse_analysis_text t) as (a & Ha & _ & _ & _ & _ & Hs & _).
  exists a. split; [exact Ha|]. rewrite Hs.
  pose proof (search_alt_lits true (py "safe to drive: yes") (py "safe: yes") t)
    as Hiff.
  change (Alt _ _) with safe_re in Hiff.
  destruct (search true safe_re t) as [m|].
  - assert (Ht : contains true (py "safe to drive: yes") t
                 || contains true (py "safe: yes") t = true)
      by (apply Hiff; by eexists).
    rewrite Ht. split; split; intros H; try done;
      try by destruct SAFE_neq_UNSAFE.
  - destruct (contains true (py "safe to drive: yes") t
              || contains true (py "safe: yes") t) eqn:Ht.
    + destruct (proj2 Hiff eq_refl) as [x Hx]. discriminate Hx.
    + split; split; intros H; try done;
        try by destruct SAFE_neq_UNSAFE.
Qed.

Lemma safety_status_spec_witness :
  ∃ a, parse_analysis (PStr (py "Verdict - SAFE TO DRIVE: Yes")) = Report a
    ∧ safety_status a = SAFE.
Proof.
  destruct (safety_status_spec (py "Verdict - SAFE TO DRIVE: Yes"))
    as (a & Ha & [_ H] & _).
  exists a. split; [exact Ha|]. apply H. vm_compute. reflexivity.
Defined.

(** IGNORECASE also pairs s with long s (U+017F). *)
Example long_s_is_safe :
  contains true (py "safe: yes") (py "ſafe: yeſ") = true.
Proof. vm_compute. reflexivity. Qed.

(** ** Sections and labels that are not there *)

Lemma search_none ic r P t :
  (∀ s x, match_here ic r s = Some x → P s = true) →
  anywhere P t = false → search ic r t = None.
Proof.
  intros HP. induction t as [|c t IH]; cbn [anywhere search]; intros H;
    apply orb_false_iff in H as [H1 H2].
  - destruct (match_here ic r []) as [[rest g]|] eqn:E; [|reflexivity].
    apply HP in E. congruence.
  - destruct (match_here ic r (c :: t)) as [[rest g]|] eqn:E; [|by apply IH].
    apply HP in E. congruence.
Qed.

Lemma lit_match_uncased p c :
  unicode_iscased p = false → lit_match true p c = lit_match false p c.
Proof. intros H. unfold lit_match. rewrite H, andb_false_r. reflexivity. Qed.

Lemma starts_with_uncased p s :
  forallb (fun a => negb (unicode_iscased a)) p = true →
  starts_with true p s = starts_with false p s.
Proof.
  revert s. induction p as [|a p IH]; intros s H; [reflexivity|].
  cbn [forallb] in H. apply andb_true_iff in H as [Ha Hp].
  destruct s as [|c s]; [reflexivity|]. cbn [starts_with].
  rewrite lit_match_uncased, IH; [reflexivity|exact Hp|].
  by destruct (unicode_iscased a).
Qed.

Lemma rmatch_chr_cat ic k r s g cont :
  rmatch ic (Chr k ⋅ r) s g cont
  = match s with
    | c :: s' => if cmatch ic k c then rmatch ic r s' g cont else None
    | [] => None
    end.
Proof. reflexivity. Qed.

Lemma rmatch_star_cat ic k r s g cont :
  rmatch ic (Rep k greedy ⋅ r) s g cont
  = rep_greedy ic k s (fun s' => rmatch ic r s' g cont).
Proof. reflexivity. Qed.

(** A match of a section pattern begins with the mark of its number. *)
Lemma section_re_mark n d w1 w2 s x :
  py n = [d] → unicode_iscased d = false → isspace d = false →
  match_here true (section_re n w1 w2) s = Some x →
  mark_here [d] s = true.
Proof.
  intros Epy Hcased Hspace H.
  unfold match_here, section_re, lit in H. rewrite Epy in H.
  rewrite rmatch_lits_cat in H.
  destruct (starts_with true (py "###") s) eqn:E3; [|discriminate].
  rewrite rmatch_star_cat in H.
  apply rep_greedy_sound in H as (w & s' & Hs & Hw & H).
  rewrite rmatch_lits_cat in H.
  destruct (starts_with true [d] s') eqn:Ed; [|discriminate].
  rewrite rmatch_chr_cat in H.
  destruct (drop (length [d]) s') as [|c' s''] eqn:Edrop; [discriminate|].
  destruct (cmatch true (CLit 46) c') eqn:Edot; [|discriminate].
  clear H. unfold mark_here.
  rewrite <- (starts_with_uncased (py "###")) by reflexivity. rewrite E3.
  change (length (py "###")) with 3%nat in Hs. rewrite Hs.
  destruct s' as [|c s']; [discriminate|].
  cbn [starts_with] in Ed. apply andb_true_iff in Ed as [Ed _].
  cbn [length drop] in Edrop. rewrite drop_0 in Edrop. subst s'.
  rewrite lit_match_uncased in Ed by exact Hcased.
  cbn [lit_match andb] in Ed. apply N.eqb_eq in Ed. subst c.
  rewrite lstrip_spaces.
  - cbn [app starts_with]. change (py ".") with [46]. cbn [starts_with].
    cbn [cmatch] in Edot. rewrite lit_match_uncased in Edot by reflexivity.
    rewrite Edot. cbn [lit_match andb]. rewrite N.eqb_refl. reflexivity.
  - exact Hw.
  - exact Hspace.
Qed.

Lemma vehicle_re_none t :
  has_mark (py "1") t = false → search true vehicle_re t = None.
Proof.
  apply search_none. intros s x H.
  by apply (section_re_mark "1" 49 "Vehicle" "Identification" s x).
Qed.

Lemma damages_re_none t :
  has_mark (py "2") t = false → search true damages_re t = None.
Proof.
  apply search_none. intros s x H.
  by apply (section_re_mark "2" 50 "Damage" "Assessment" s x).
Qed.

(** C5: a text without the mark "###", white space, "1." and without the
    mark "###", white space, "2." makes [parse_analysis] return normally,
    with the empty dictionary as [vehicle] and the empty list as
    [damages]. *)
Theorem no_headers_empty (t : str) :
  has_mark (py "1") t = false → has_mark (py "2") t = false →
  ∃ a, parse_analysis (PStr t) = Report a ∧ vehicle a = ∅ ∧ damages a = [].
Proof.
  intros H1 H2.
  destruct (parse_analysis_text t) as (a & Ha & Hv & Hd & _).
  exists a. rewrite Hv, Hd, vehicle_re_none, damages_re_none by assumption.
  auto.
Qed.

Lemma no_headers_empty_witness :
  ∃ a, parse_analysis (PStr (py "## 1. Vehicle Identification
Make: Toyota
Safe to drive: yes")) = Report a ∧ vehicle a = ∅ ∧ damages a = [].
Proof.
  apply no_headers_empty; vm_compute; reflexivity.
Defined.

(** A match of the pattern of a key begins with the key and a colon. *)
Lemma value_re_label key s x :
  match_here true (value_re key) s = Some x →
  starts_with true (strip key ++ py ":") s = true.
Proof.
  unfold match_here, value_re, lit. intros H.
  rewrite rmatch_lits_cat in H.
  destruct (starts_with true (strip key) s) eqn:E1; [|discriminate].
  rewrite rmatch_lits_cat in H.
  destruct (starts_with true (py ":") (drop (length (strip key)) s)) eqn:E2;
    [|discriminate].
  rewrite starts_with_app, E1, E2. reflexivity.
Qed.

Lemma first_value_missing t keys :
  forallb (fun key => negb (contains true (strip key ++ py ":") t)) keys = true →
  first_value t keys = MISSING.
Proof.
  induction keys as [|key keys IH]; [reflexivity|].
  cbn [forallb first_value]. intros H. apply andb_true_iff in H as [Hk Hks].
  apply negb_true_iff in Hk.
  rewrite (search_none true (value_re key) _ t (value_re_label key) Hk).
  by apply IH.
Qed.

Lemma total_cost_keys :
  strip <$> split_on 124 (py "total estimated repair cost|total cost")
  = [py "total estimated repair cost"; py "total cost"].
Proof. vm_compute. reflexivity. Qed.

Lemma repair_time_keys :
  strip <$> split_on 124 (py "estimated repair timeline|repair time")
  = [py "estimated repair timeline"; py "repair time"].
Proof. vm_compute. reflexivity. Qed.

Lemma first_value_no_label t keys :
  forallb (fun l => negb (contains true (l ++ py ":") t)) (strip <$> keys)
  = true →
  first_value t keys = MISSING.
Proof.
  intros H. apply first_value_missing.
  induction keys as [|key keys IH]; [reflexivity|].
  cbn [fmap list_fmap forallb] in *. apply andb_true_iff in H as [-> H].
  by apply IH.
Qed.

(** C3 as stated fails: on plain prose no step raises, so the dictionary
    returned is the complete one, with the "unsafe" label as safety status
    and the placeholder as total cost and repair time. *)
Lemma plain_prose_not_content_only :
  plain_prose prose = true
  ∧ parse_analysis (PStr prose)
    = Report {| vehicle := ∅; damages := []; total_cost := MISSING;
                repair_time := MISSING; safety_status := UNSAFE;
                content := PStr prose |}
  ∧ parse_analysis (PStr prose) ≠ ContentOnly (PStr prose).
Proof.
  assert (E : parse_analysis (PStr prose)
    = Report {| vehicle := ∅; damages := []; total_cost := MISSING;
                repair_time := MISSING; safety_status := UNSAFE;
                content := PStr prose |}) by (vm_compute; reflexivity).
  split; [vm_compute; reflexivity|]. split; [exact E|].
  rewrite E. discriminate.
Qed.

(** C3, amended: on text without section mark, without one of the labels
    followed by a colon and without safety phrase, [parse_analysis] returns
    the complete dictionary: empty [vehicle], empty [damages], the
    placeholder as total cost and as repair time, the "unsafe" label, and
    the text itself as [content]. *)
Theorem plain_prose_report (t : str) :
  plain_prose t = true →
  parse_analysis (PStr t)
  = Report {| vehicle := ∅; damages := []; total_cost := MISSING;
              repair_time := MISSING; safety_status := UNSAFE;
              content := PStr t |}.
Proof.
  unfold plain_prose. rewrite !andb_true_iff, !negb_true_iff.
  intros ((((H1 & H2) & HL) & HS1) & HS2).
  cbn [forallb LABELS] in HL. rewrite !andb_true_iff in HL.
  destruct HL as (L1 & L2 & L3 & L4 & _).
  destruct (parse_analysis_text t) as (a & Ha & Hv & Hd & Hc & Hr & Hs & Ht).
  rewrite Ha. f_equal.
  rewrite vehicle_re_none in Hv by exact H1.
  rewrite damages_re_none in Hd by exact H2.
  rewrite first_value_no_label in Hc
    by (rewrite total_cost_keys; cbn [forallb]; by rewrite L1, L2).
  rewrite first_value_no_label in Hr
    by (rewrite repair_time_keys; cbn [forallb]; by rewrite L3, L4).
  assert (Hn : search true safe_re t = None).
  { pose proof (search_alt_lits true (py "safe to drive: yes")
                  (py "safe: yes") t) as Hiff.
    rewrite HS1, HS2 in Hiff. change (Alt _ _) with safe_re in Hiff.
    destruct (search true safe_re t); [|reflexivity].
    destruct Hiff as [Hiff _]. by discriminate Hiff. }
  rewrite Hn in Hs. destruct a.
  cbn [vehicle damages total_cost repair_time safety_status content] in *.
  subst. reflexivity.
Qed.

Lemma plain_prose_report_witness :
  parse_analysis (PStr prose)
  = Report {| vehicle := ∅; damages := []; total_cost := MISSING;
              repair_time := MISSING; safety_status := UNSAFE;
              content := PStr prose |}.
Proof.
  apply plain_prose_report. vm_compute. reflexivity.
Defined.

(** ** Scenarios *)

(** C1: on the text of scenario A [parse_analysis] returns the vehicle
    Toyota, Camry, 2019, ABC123, the two damage records in the order of the
    text (front bumper: localized "severe", replace, 6-10 million; hood:
    localized "minor", repair, 1-2 million), total cost 5000, repair time
    3 days and the "safe" label. *)
Theorem scenario_A_report :
  parse_analysis (PStr scenario_A)
  = Report
      {| vehicle := {[ "make" := py "Toyota"; "model" := py "Camry";
                       "year" := py "2019"; "plate" := py "ABC123" ]};
         damages :=
           [ {| part := py "Front Bumper"; type := py "Cracked";
                severity := py "شدید"; action := py "تعویض";
                cost := py "6-10 میلیون تومان" |};
             {| part := py "Hood"; type := py "Dented";
                severity := py "جزئی"; action := py "تعمیر";
                cost := py "1-2 میلیون تومان" |} ];
         total_cost := py "5000";
         repair_time := py "3 days";
         safety_status := py "ایمن";
         content := PStr scenario_A |}.
Proof. vm_compute. reflexivity. Qed.

(** Scenario C through [parse_analysis]. *)
Example scenario_C_report :
  ∃ a, parse_analysis (PStr scenario_C) = Report a
    ∧ damages a
      = [ {| part := py "Rear Door"; type := py "Scratched";
             severity := py "شدید"; action := REPLACE; cost := MISSING |};
          {| part := py "Mirror"; type := py "Broken";
             severity := py "متوسط"; action := REPAIR; cost := MISSING |} ].
Proof. eexists. split; vm_compute; reflexivity. Qed.

(** The action of a record is decided by the severity it stores. *)
Lemma action_by_severity part damage_type sev :
  action (damage_of part damage_type sev)
  = if decide (severity (damage_of part damage_type sev) = py "شدید")
    then REPLACE else REPAIR.
Proof.
  cbn [action severity damage_of]. unfold translate_severity.
  destruct (severity_map !! str_lower sev) as [v|] eqn:E.
  - apply severity_map_table in E. unfold SEVERITY_TABLE in E.
    rewrite !elem_of_cons, elem_of_nil in E.
    destruct_or!; try done; injection E as -> ->; reflexivity.
  - cbn [default].
    destruct (decide (str_lower sev ∈ [py "severe"; py "شدید"])) as [Hin|_].
    + rewrite !elem_of_cons, elem_of_nil in Hin.
      destruct_or!; try done; rewrite Hin in E; vm_compute in E; discriminate E.
    + destruct (decide (sev = py "شدید")) as [->|_]; [|reflexivity].
      vm_compute in E. discriminate E.
Qed.

Lemma damages_are_damage_of t a d :
  parse_analysis (PStr t) = Report a → d ∈ damages a →
  ∃ part damage_type sev, d = damage_of part damage_type sev.
Proof.
  intros Ha Hd.
  destruct (parse_analysis_text t) as (a' & Ha' & _ & Hd' & _).
  rewrite Ha in Ha'. injection Ha' as <-. rewrite Hd' in Hd.
  destruct (search true damages_re t) as [m|]; [|by apply elem_of_nil in Hd].
  apply list_elem_of_fmap in Hd as ([[p ty] sev] & -> & _). eauto.
Qed.

(** The part of C2 that holds: two records of a report with the same
    severity have the same action. *)
Lemma action_function_of_severity t a d1 d2 :
  parse_analysis (PStr t) = Report a → d1 ∈ damages a → d2 ∈ damages a →
  severity d1 = severity d2 → action d1 = action d2.
Proof.
  intros Ha H1 H2 Hs.
  destruct (damages_are_damage_of t a d1 Ha H1) as (p1 & t1 & s1 & ->).
  destruct (damages_are_damage_of t a d2 Ha H2) as (p2 & t2 & s2 & ->).
  rewrite !action_by_severity, Hs. reflexivity.
Qed.

(** C2 fails on the code: a line with the English word and a line with the
    localized word give records with the same severity and different costs,
    because [estimate_cost] receives the word of the text and has no entry
    for the localized words. *)
Theorem cost_not_function_of_severity :
  ∃ a d1 d2,
    parse_analysis (PStr mixed_tokens) = Report a
    ∧ damages a = [d1; d2]
    ∧ severity d1 = severity d2
    ∧ action d1 = action d2
    ∧ cost d1 = py "1-2 میلیون تومان"
    ∧ cost d2 = MISSING
    ∧ cost d1 ≠ cost d2.
Proof.
  eexists _, _, _. split; [vm_compute; reflexivity|].
  cbn [damages severity action cost].
  repeat split. intros H. discriminate H.
Qed.

(** C9 fails on the code: after the colon [\s*] also runs over the end of
    the line, so a label with an empty value followed by another line gives
    that line, not the empty string.  At the end of the text the value is
    the empty string, and without a label it is the placeholder. *)
Theorem extract_value_empty_value :
  extract_value (PStr empty_make) "make|manufacturer" = inr (py "Model: Camry")
  ∧ extract_value (PStr (py "Make:   ")) "make|manufacturer" = inr []
  ∧ extract_value (PStr (py "Model: Camry")) "make|manufacturer" = inr MISSING.
Proof. repeat split; vm_compute; reflexivity. Qed.

(** ** The damage line pattern *)

(** A lazy star stops at the first place where the rest of the pattern
    matches. *)
Lemma rep_lazy_first ic k w s' cont x :
  forallb (cmatch ic k) w = true →
  cont s' = Some x →
  (∀ w1 c w2, w = w1 ++ c :: w2 → cont (c :: w2 ++ s') = None) →
  rep_lazy ic k (w ++ s') cont = Some x.
Proof.
  intros Hw Hc. induction w as [|c w IH]; intros Hfail.
  - cbn [app]. destruct s'; cbn [rep_lazy]; by rewrite Hc.
  - cbn [forallb] in Hw. apply andb_true_iff in Hw as [Hk Hw].
    cbn [app rep_lazy]. rewrite (Hfail [] c w eq_refl), Hk.
    apply IH; [exact Hw|]. intros w1 c' w2 ->.
    by apply (Hfail (c :: w1) c' w2).
Qed.

Lemma rmatch_grp_lazy_cat ic i k r s g cont :
  rmatch ic (Grp i (Rep k lazy) ⋅ r) s g cont
  = rep_lazy ic k s
      (fun s' => rmatch ic r s' (<[i := take (length s - length s') s]> g) cont).
Proof. reflexivity. Qed.

Lemma starts_with_self p s : starts_with false p (p ++ s) = true.
Proof.
  induction p as [|a p IH]; [reflexivity|]. cbn [app starts_with].
  rewrite IH. unfold lit_match. cbn [andb]. by rewrite N.eqb_refl.
Qed.

Lemma starts_with_exact p s :
  starts_with false p s = true → s = p ++ drop (length p) s.
Proof.
  revert s. induction p as [|a p IH]; intros s H; [by rewrite drop_0|].
  destruct s as [|c s]; [discriminate H|]. cbn [starts_with] in H.
  apply andb_true_iff in H as [Hc Hp]. apply lit_match_exact in Hc as ->.
  cbn [app length drop]. f_equal. by apply IH.
Qed.

Lemma take_consumed (w s : str) : take (length (w ++ s) - length s) (w ++ s) = w.
Proof.
  rewrite length_app. replace (length w + length s - length s)%nat
    with (length w) by lia.
  by rewrite take_app_length.
Qed.

(** The six words of the third group, each at the end of the line. *)
Lemma rmatch_tokens sev g cont :
  sev ∈ ENGLISH ++ LOCALIZED →
  rmatch false
    (Grp 3 (Alt (lit "minor") (Alt (lit "moderate") (Alt (lit "severe")
           (Alt (lit "جزئی") (Alt (lit "متوسط") (lit "شدید")))))))
    sev g cont
  = cont [] (<[3%nat := sev]> g).
Proof.
  unfold ENGLISH, LOCALIZED. cbn [app]. rewrite !elem_of_cons, elem_of_nil.
  intros H. unfold lit. cbn [rmatch]. rewrite !rmatch_lits.
  destruct_or!; try done; subst sev;
    repeat match goal with
           | |- context [starts_with false ?p ?s] =>
               let b := eval vm_compute in (starts_with false p s) in
               change (starts_with false p s) with b
           end;
    cbn iota;
    rewrite drop_all; cbn [length]; rewrite Nat.sub_0_r, firstn_all;
    try reflexivity; by destruct (cont [] _).
Qed.

Lemma no_char_cons x c s :
  no_char x (c :: s) = true → c ≠ x ∧ no_char x s = true.
Proof.
  unfold no_char. cbn [forallb]. rewrite andb_true_iff, negb_true_iff.
  intros [H1 H2]. split; [by apply N.eqb_neq|exact H2].
Qed.

Lemma no_char_app x u c v : no_char x (u ++ c :: v) = true → c ≠ x.
Proof.
  unfold no_char. rewrite forallb_app. cbn [forallb].
  rewrite !andb_true_iff, negb_true_iff. intros (_ & H & _).
  by apply N.eqb_neq.
Qed.

Lemma no_newline_dot ic s : no_char NL s = true → forallb (cmatch ic CDot) s = true.
Proof. intros H. exact H. Qed.

(** One line of the template is matched as a whole and read back. *)
Lemma match_here_damage_line part damage_type sev :
  no_char NL part = true → no_char 40 part = true →
  no_char NL damage_type = true → no_char 41 damage_type = true →
  sev ∈ ENGLISH ++ LOCALIZED →
  match_here false damage_item_re (damage_line part damage_type sev)
  = Some ([], <[3%nat := sev]> (<[2%nat := damage_type]> (<[1%nat := part]> ∅))).
Proof.
  intros Hp1 Hp2 Ht1 Ht2 Hsev.
  unfold match_here, damage_item_re, damage_line, lit.
  rewrite rmatch_lits_cat, starts_with_self, drop_app_length.
  rewrite rmatch_grp_lazy_cat.
  apply rep_lazy_first; [by apply no_newline_dot| |].
  - rewrite take_consumed.
    rewrite rmatch_lits_cat, starts_with_self, drop_app_length.
    rewrite rmatch_grp_lazy_cat.
    apply rep_lazy_first; [by apply no_newline_dot| |].
    + rewrite take_consumed.
      rewrite rmatch_lits_cat, starts_with_self, drop_app_length.
      by apply rmatch_tokens.
    + intros w1 c w2 E. rewrite rmatch_lits_cat.
      rewrite E in Ht2. apply no_char_app in Ht2.
      change (py ") - ") with [41; 32; 45; 32]. cbn [starts_with].
      unfold lit_match at 1. cbn [andb].
      by rewrite (proj2 (N.eqb_neq c 41) Ht2).
  - intros w1 c w2 E. rewrite rmatch_lits_cat.
    rewrite E in Hp2. change (py " (") with [32; 40].
    destruct w2 as [|c2 w2]; cbn [app starts_with]; unfold lit_match;
      cbn [andb].
    + change (32 =? 40) with false. by rewrite andb_false_r.
    + replace (w1 ++ c :: c2 :: w2) with ((w1 ++ [c]) ++ c2 :: w2) in Hp2
        by (by rewrite <- app_assoc).
      apply no_char_app in Hp2.
      rewrite (proj2 (N.eqb_neq c2 40) Hp2). by rewrite andb_false_r.
Qed.

(** Past the end of a match that reaches the end of the text only the empty
    suffix is tried. *)
Lemma finditer_skip_all ic r s :
  finditer ic r s (length s) = finditer ic r [] 0.
Proof. induction s as [|c s IH]; [reflexivity|exact IH]. Qed.

Lemma finditer_whole ic r c s g :
  match_here ic r (c :: s) = Some ([], g) →
  finditer ic r (c :: s) 0 = g :: finditer ic r [] 0.
Proof.
  intros H. cbn [finditer]. rewrite H. f_equal.
  replace (length (c :: s) - length (@nil N) - 1)%nat with (length s)
    by (cbn [length]; lia).
  apply finditer_skip_all.
Qed.

(** A line of the template gives back its three fields. *)
Lemma damage_items_line part damage_type sev :
  no_char NL part = true → no_char 40 part = true →
  no_char NL damage_type = true → no_char 41 damage_type = true →
  sev ∈ ENGLISH ++ LOCALIZED →
  damage_items (damage_line part damage_type sev) = [(part, damage_type, sev)].
Proof.
  intros Hp1 Hp2 Ht1 Ht2 Hsev.
  pose proof (match_here_damage_line part damage_type sev Hp1 Hp2 Ht1 Ht2 Hsev)
    as Hm.
  unfold damage_items.
  change (damage_line part damage_type sev)
    with (45 :: 32 :: part ++ py " (" ++ damage_type ++ py ") - " ++ sev) in *.
  rewrite (finditer_whole _ _ _ _ _ Hm).
  change (finditer false damage_item_re [] 0) with (@nil caps).
  cbn [fmap list_fmap]. unfold group.
  rewrite lookup_insert_ne, lookup_insert_ne, lookup_insert_eq by done.
  rewrite lookup_insert_ne, lookup_insert_eq by done.
  rewrite lookup_insert_eq. reflexivity.
Qed.

(** Every match [finditer] lists is a match at some place of the text. *)
Lemma finditer_elem ic r s k m :
  m ∈ finditer ic r s k → ∃ s1 rest, match_here ic r s1 = Some (rest, m).
Proof.
  revert k. induction s as [|c s IH]; intros k; destruct k as [|k];
    cbn [finditer]; intros H.
  - destruct (match_here ic r []) as [[rest g]|] eqn:E;
      [|by apply elem_of_nil in H].
    apply list_elem_of_singleton in H as ->. eauto.
  - by apply elem_of_nil in H.
  - destruct (match_here ic r (c :: s)) as [[rest g]|] eqn:E; [|by eapply IH].
    apply elem_of_cons in H as [->|H]; [eauto|by eapply IH].
  - by eapply IH.
Qed.

Lemma rmatch_tokens_sound s g rest m :
  rmatch false
    (Grp 3 (Alt (lit "minor") (Alt (lit "moderate") (Alt (lit "severe")
           (Alt (lit "جزئی") (Alt (lit "متوسط") (lit "شدید")))))))
    s g (fun s' g' => Some (s', g'))
  = Some (rest, m) →
  ∃ tok, tok ∈ ENGLISH ++ LOCALIZED ∧ m = <[3%nat := tok]> g.
Proof.
  unfold lit. cbn [rmatch]. rewrite !rmatch_lits. intros H.
  repeat match type of H with
         | context [starts_with false ?p s] =>
             let E := fresh "E" in
             destruct (starts_with false p s) eqn:E;
             [ injection H as _ <-; exists p;
               split; [unfold ENGLISH, LOCALIZED; cbn [app];
                       rewrite !elem_of_cons; tauto|];
               apply starts_with_exact in E;
               rewrite E at 1 3; by rewrite take_consumed
             | ]
         end.
  discriminate H.
Qed.

(** The third group of a damage line is one of the six words. *)
Lemma damage_item_re_token s rest m :
  match_here false damage_item_re s = Some (rest, m) →
  group m 3 ∈ ENGLISH ++ LOCALIZED.
Proof.
  unfold match_here, damage_item_re. intros H. unfold lit at 1 in H.
  rewrite rmatch_lits_cat in H.
  destruct (starts_with false (py "- ") s); [|discriminate H].
  rewrite rmatch_grp_lazy_cat in H.
  apply rep_lazy_sound in H as (w1 & s1 & _ & _ & H).
  unfold lit at 1 in H. rewrite rmatch_lits_cat in H.
  destruct (starts_with false (py " (") s1); [|discriminate H].
  rewrite rmatch_grp_lazy_cat in H.
  apply rep_lazy_sound in H as (w2 & s2 & _ & _ & H).
  unfold lit at 1 in H. rewrite rmatch_lits_cat in H.
  destruct (starts_with false (py ") - ") s2); [|discriminate H].
  apply rmatch_tokens_sound in H as (tok & Htok & ->).
  unfold group. by rewrite lookup_insert_eq.
Qed.

Lemma damage_items_token block part damage_type sev :
  (part, damage_type, sev) ∈ damage_items block → sev ∈ ENGLISH ++ LOCALIZED.
Proof.
  unfold damage_items. intros H.
  apply list_elem_of_fmap in H as (m & E & Hm). injection E as -> -> ->.
  apply finditer_elem in Hm as (s1 & rest & Hm).
  by eapply damage_item_re_token.
Qed.

(** Every record of a report stores one of the three localized labels as
    severity. *)
Lemma damages_severity_localized t a d :
  parse_analysis (PStr t) = Report a → d ∈ damages a → severity d ∈ LOCALIZED.
Proof.
  intros Ha Hd.
  destruct (parse_analysis_text t) as (a' & Ha' & _ & Hd' & _).
  rewrite Ha in Ha'. injection Ha' as <-. rewrite Hd' in Hd.
  destruct (search true damages_re t) as [m|]; [|by apply elem_of_nil in Hd].
  apply list_elem_of_fmap in Hd as ([[p ty] sev] & -> & Hin).
  apply damage_items_token in Hin.
  unfold ENGLISH, LOCALIZED in *. cbn [app] in Hin.
  rewrite !elem_of_cons, elem_of_nil in Hin.
  destruct_or!; try done; subst sev;
    apply (bool_decide_unpack _); vm_compute; exact I.
Qed.

(** * Further properties of the code *)

(** ** allowed_file *)

Lemma rsplit1_no_sep sep s : sep ∉ s → rsplit1 sep s = [s].
Proof.
  induction s as [|c s IH]; [reflexivity|]. intros H.
  apply not_elem_of_cons in H as [Hc Hs]. cbn [rsplit1]. rewrite (IH Hs).
  by rewrite (proj2 (N.eqb_neq c sep)).
Qed.

Lemma rsplit1_last sep stem ext :
  sep ∉ ext → rsplit1 sep (stem ++ sep :: ext) = [stem; ext].
Proof.
  intros H. induction stem as [|c stem IH]; cbn [app rsplit1].
  - by rewrite (rsplit1_no_sep sep ext H), N.eqb_refl.
  - by rewrite IH.
Qed.

Lemma last_sep (sep : N) (s : str) :
  sep ∈ s → ∃ stem ext, s = stem ++ sep :: ext ∧ (sep ∉ ext).
Proof.
  induction s as [|c s IH]; intros H; [by apply elem_of_nil in H|].
  destruct (decide (sep ∈ s)) as [Hs|Hs].
  - destruct (IH Hs) as (stem & ext & -> & Hext). by exists (c :: stem), ext.
  - apply elem_of_cons in H as [->|H]; [|done]. by exists [], s.
Qed.

Lemma allowed_file_dot stem ext :
  46 ∉ ext →
  allowed_file (stem ++ 46 :: ext)
  = inr (bool_decide (str_lower ext ∈ ALLOWED_EXTENSIONS)).
Proof.
  intros H. unfold allowed_file.
  rewrite bool_decide_eq_true_2
    by (apply elem_of_app; right; apply list_elem_of_here).
  by rewrite rsplit1_last.
Qed.

(** X1: [allowed_file] never raises, and it accepts a name exactly when the
    name has a dot and what follows its last dot is, in lower case, one of
    png, jpg, jpeg, gif; what stands before that dot does not matter. *)
Theorem allowed_file_spec (filename : str) :
  ∃ b, allowed_file filename = inr b
    ∧ (b = true
       ↔ ∃ stem ext, filename = stem ++ 46 :: ext ∧ (46 ∉ ext)
                     ∧ str_lower ext ∈ ALLOWED_EXTENSIONS).
Proof.
  destruct (decide (46 ∈ filename)) as [Hdot|Hdot].
  - destruct (last_sep 46 filename Hdot) as (stem & ext & -> & Hext).
    eexists. split; [by apply allowed_file_dot|]. split.
    + intros H. apply bool_decide_eq_true in H. eauto.
    + intros (stem' & ext' & E & Hext' & Hin).
      apply bool_decide_eq_true.
      assert (Heq : [stem; ext] = [stem'; ext'])
        by (rewrite <- (rsplit1_last 46 stem ext), <- (rsplit1_last 46 stem' ext');
            [by rewrite E|done|done]).
      by injection Heq as -> ->.
  - exists false. split.
    + unfold allowed_file. by rewrite bool_decide_eq_false_2.
    + split; [discriminate|]. intros (stem & ext & -> & _). exfalso.
      apply Hdot. apply elem_of_app. right. apply list_elem_of_here.
Qed.

(** ** The shape of a report *)

(** X2: the content handed to [parse_analysis] is always part of what it
    returns, in the complete dictionary and in the one of the [except]
    branch. *)
Theorem content_kept (v : pyval) :
  match parse_analysis v with
  | Report a => content a = v
  | ContentOnly c => c = v
  end.
Proof.
  destruct v as [t|]; [|reflexivity].
  destruct (parse_analysis_text t) as (a & -> & _ & _ & _ & _ & _ & Hc).
  exact Hc.
Qed.

(** X3: on text the [vehicle] dictionary is either empty or has exactly the
    four keys make, model, year and plate. *)
Theorem vehicle_keys (t : str) :
  ∃ a, parse_analysis (PStr t) = Report a
    ∧ (vehicle a = ∅
       ∨ dom (vehicle a) = ({[ "make"; "model"; "year"; "plate" ]} : gset string)).
Proof.
  destruct (parse_analysis_text t) as (a & Ha & Hv & _).
  exists a. split; [exact Ha|]. rewrite Hv.
  destruct (search true vehicle_re t) as [m|]; [right|by left].
  unfold vehicle_of. rewrite !dom_insert_L, dom_empty_L. set_solver.
Qed.

Lemma damage_of_fields part damage_type sev :
  sev ∈ ENGLISH ++ LOCALIZED →
  let d := damage_of part damage_type sev in
  severity d ∈ LOCALIZED
  ∧ (action d = REPLACE ∧ severity d = py "شدید"
     ∨ action d = REPAIR ∧ severity d ≠ py "شدید")
  ∧ (cost d = MISSING ∧ sev ∈ LOCALIZED
     ∨ (sev, severity d) ∈ SEVERITY_TABLE ∧ (sev, cost d) ∈ COST_TABLE).
Proof.
  unfold ENGLISH, LOCALIZED. cbn [app]. rewrite !elem_of_cons, elem_of_nil.
  intros H. cbn zeta. cbn [severity action cost damage_of].
  destruct_or!; try done; subst sev.
  all: split; [apply (bool_decide_unpack _); vm_compute; exact I|].
  all: split;
    [ first [ left; split; vm_compute; reflexivity
            | right; split; [vm_compute; reflexivity|];
              let H := fresh in
              intros H; apply (f_equal (fun l => nth 0 l 0)) in H;
              vm_compute in H; discriminate H ]
    | first [ left; split; [vm_compute; reflexivity|];
              apply (bool_decide_unpack _); vm_compute; exact I
            | right; split; apply (bool_decide_unpack _); vm_compute; exact I ] ].
Qed.

(** X4: every damage record of a report stores one of the three localized
    labels as severity; its action is "replace" exactly when that label is
    the one for severe, and "repair" otherwise; its cost is either the
    placeholder or the band that the cost table gives for an English word
    which translates to the stored severity. *)
Theorem damage_records_consistent (t : str) :
  ∃ a, parse_analysis (PStr t) = Report a
    ∧ Forall (fun d =>
        severity d ∈ LOCALIZED
        ∧ (action d = REPLACE ∧ severity d = py "شدید"
           ∨ action d = REPAIR ∧ severity d ≠ py "شدید")
        ∧ (cost d = MISSING
           ∨ ∃ eng, (eng, severity d) ∈ SEVERITY_TABLE
                    ∧ (eng, cost d) ∈ COST_TABLE))
        (damages a).
Proof.
  destruct (parse_analysis_text t) as (a & Ha & _ & Hd & _).
  exists a. split; [exact Ha|]. rewrite Hd.
  destruct (search true damages_re t) as [m|]; [|constructor].
  apply Forall_fmap, Forall_forall. intros [[p ty] sev] Hin.
  apply damage_items_token in Hin.
  destruct (damage_of_fields p ty sev Hin) as (H1 & H2 & H3).
  split; [exact H1|]. split; [exact H2|].
  destruct H3 as [[H3 _]|[H3 H4]]; [by left|right; eauto].
Qed.

(** ** Damage lines *)

Lemma starts_with_mismatch ic p u v :
  starts_with ic (take (length u) p) u = false →
  starts_with ic p (u ++ v) = false.
Proof.
  revert u. induction p as [|a p IH]; intros u H.
  - by rewrite take_nil in H.
  - destruct u as [|c u]; [discriminate H|].
    cbn [length take app starts_with] in *.
    destruct (lit_match ic a c); [by apply IH|reflexivity].
Qed.

(** The third group reads one of the six words and goes on with what
    follows it. *)
Lemma rmatch_tokens_tail sev tail g cont :
  sev ∈ ENGLISH ++ LOCALIZED →
  rmatch false
    (Grp 3 (Alt (lit "minor") (Alt (lit "moderate") (Alt (lit "severe")
           (Alt (lit "جزئی") (Alt (lit "متوسط") (lit "شدید")))))))
    (sev ++ tail) g cont
  = cont tail (<[3%nat := sev]> g).
Proof.
  unfold ENGLISH, LOCALIZED. cbn [app]. rewrite !elem_of_cons, elem_of_nil.
  intros H. unfold lit. cbn [rmatch]. rewrite !rmatch_lits.
  destruct_or!; try done; subst sev;
    rewrite ?(starts_with_mismatch false _ _ tail) by (vm_compute; reflexivity);
    rewrite starts_with_self, drop_app_length, take_consumed;
    rewrite ?(starts_with_mismatch false _ _ tail) by (vm_compute; reflexivity);
    by destruct (cont tail _).
Qed.

(** A line of the template is matched at its head, whatever follows it. *)
Lemma match_here_damage_line_tail part damage_type sev tail :
  clean_item (part, damage_type, sev) = true →
  match_here false damage_item_re (damage_line part damage_type sev ++ tail)
  = Some (tail,
          <[3%nat := sev]> (<[2%nat := damage_type]> (<[1%nat := part]> ∅))).
Proof.
  unfold clean_item. rewrite !andb_true_iff, bool_decide_eq_true.
  intros ((((Hp1 & Hp2) & Ht1) & Ht2) & Hsev).
  unfold match_here, damage_item_re, damage_line, lit.
  rewrite <- !app_assoc.
  rewrite rmatch_lits_cat, starts_with_self, drop_app_length.
  rewrite rmatch_grp_lazy_cat.
  apply rep_lazy_first; [by apply no_newline_dot| |].
  - rewrite take_consumed.
    rewrite rmatch_lits_cat, starts_with_self, drop_app_length.
    rewrite rmatch_grp_lazy_cat.
    apply rep_lazy_first; [by apply no_newline_dot| |].
    + rewrite take_consumed.
      rewrite rmatch_lits_cat, starts_with_self, drop_app_length.
      by apply rmatch_tokens_tail.
    + intros w1 c w2 E. rewrite rmatch_lits_cat.
      rewrite E in Ht2. apply no_char_app in Ht2.
      change (py ") - ") with [41; 32; 45; 32]. cbn [starts_with].
      unfold lit_match at 1. cbn [andb].
      by rewrite (proj2 (N.eqb_neq c 41) Ht2).
  - intros w1 c w2 E. rewrite rmatch_lits_cat.
    rewrite E in Hp2. change (py " (") with [32; 40].
    destruct w2 as [|c2 w2]; cbn [app starts_with]; unfold lit_match;
      cbn [andb].
    + change (32 =? 40) with false. by rewrite andb_false_r.
    + replace (w1 ++ c :: c2 :: w2) with ((w1 ++ [c]) ++ c2 :: w2) in Hp2
        by (by rewrite <- app_assoc).
      apply no_char_app in Hp2.
      rewrite (proj2 (N.eqb_neq c2 40) Hp2). by rewrite andb_false_r.
Qed.

Lemma finditer_skip ic r u tail :
  finditer ic r (u ++ tail) (length u) = finditer ic r tail 0.
Proof. induction u as [|c u IH]; [reflexivity|exact IH]. Qed.

Lemma finditer_match ic r c w tail g :
  match_here ic r (c :: w ++ tail) = Some (tail, g) →
  finditer ic r (c :: w ++ tail) 0 = g :: finditer ic r tail 0.
Proof.
  intros H. cbn [finditer]. rewrite H. f_equal.
  replace (length (c :: w ++ tail) - length tail - 1)%nat with (length w)
    by (cbn [length]; rewrite length_app; lia).
  apply finditer_skip.
Qed.

Lemma damage_items_cons part damage_type sev tail :
  clean_item (part, damage_type, sev) = true →
  damage_items (damage_line part damage_type sev ++ tail)
  = (part, damage_type, sev) :: damage_items tail.
Proof.
  intros Hc. unfold damage_items.
  pose proof (match_here_damage_line_tail part damage_type sev tail Hc) as Hm.
  set (w := 32 :: part ++ py " (" ++ damage_type ++ py ") - " ++ sev).
  change (damage_line part damage_type sev ++ tail) with (45 :: w ++ tail) in *.
  rewrite (finditer_match _ _ _ _ _ _ Hm).
  cbn [fmap list_fmap]. unfold group.
  rewrite lookup_insert_ne, lookup_insert_ne, lookup_insert_eq by done.
  rewrite lookup_insert_ne, lookup_insert_eq by done.
  by rewrite lookup_insert_eq.
Qed.

Lemma damage_items_newline s : damage_items (NL :: s) = damage_items s.
Proof.
  unfold damage_items. cbn [finditer].
  replace (match_here false damage_item_re (NL :: s)) with (@None (str * caps));
    [reflexivity|].
  unfold match_here, damage_item_re, lit. by rewrite rmatch_lits_cat.
Qed.

(** X5: damage lines written as the template has them, one per line, are
    read back by the damage line pattern as their fields, all of them and in
    the order of the text; the scan then goes on with what follows. *)
Theorem damage_block_round_trip (items : list (str * str * str)) (tail : str) :
  forallb clean_item items = true →
  damage_items (damage_block items tail) = items ++ damage_items tail.
Proof.
  induction items as [|[[p ty] sev] items IH]; [reflexivity|].
  cbn [forallb damage_block]. intros H. apply andb_true_iff in H as [Hc Hs].
  rewrite damage_items_cons by exact Hc.
  rewrite damage_items_newline, IH by exact Hs. reflexivity.
Qed.

Lemma damage_block_round_trip_witness :
  damage_items
    (damage_block [(py "Front Bumper", py "Cracked", py "severe");
                   (py "Hood", py "Dented", py "جزئی")]
                  (py "Total Cost: 5000"))
  = [(py "Front Bumper", py "Cracked", py "severe");
     (py "Hood", py "Dented", py "جزئی")].
Proof.
  rewrite damage_block_round_trip by (vm_compute; reflexivity).
  vm_compute. reflexivity.
Defined.

Lemma finditer_elem_at ic r s k m :
  m ∈ finditer ic r s k →
  ∃ pre s1 rest, s = pre ++ s1 ∧ match_here ic r s1 = Some (rest, m).
Proof.
  revert k. induction s as [|c s IH]; intros k; destruct k as [|k];
    cbn [finditer]; intros H.
  - destruct (match_here ic r []) as [[rest g]|] eqn:E;
      [|by apply elem_of_nil in H].
    apply list_elem_of_singleton in H as ->. by exists [], [], rest.
  - by apply elem_of_nil in H.
  - destruct (match_here ic r (c :: s)) as [[rest g]|] eqn:E.
    + apply elem_of_cons in H as [->|H]; [by exists [], (c :: s), rest|].
      destruct (IH _ H) as (pre & s1 & rest' & -> & Hm).
      by exists (c :: pre), s1, rest'.
    + destruct (IH _ H) as (pre & s1 & rest' & -> & Hm).
      by exists (c :: pre), s1, rest'.
  - destruct (IH _ H) as (pre & s1 & rest' & -> & Hm).
    by exists (c :: pre), s1, rest'.
Qed.

Lemma rmatch_tokens_split s g rest m :
  rmatch false
    (Grp 3 (Alt (lit "minor") (Alt (lit "moderate") (Alt (lit "severe")
           (Alt (lit "جزئی") (Alt (lit "متوسط") (lit "شدید")))))))
    s g (fun s' g' => Some (s', g'))
  = Some (rest, m) →
  ∃ tok, tok ∈ ENGLISH ++ LOCALIZED ∧ s = tok ++ rest ∧ m = <[3%nat := tok]> g.
Proof.
  unfold lit. cbn [rmatch]. rewrite !rmatch_lits. intros H.
  repeat match type of H with
         | context [starts_with false ?p s] =>
             let E := fresh "E" in
             destruct (starts_with false p s) eqn:E;
             [ injection H as <- <-; exists p;
               split; [unfold ENGLISH, LOCALIZED; cbn [app];
                       rewrite !elem_of_cons; tauto|];
               apply starts_with_exact in E;
               split; [exact E|];
               rewrite E at 1 3; by rewrite take_consumed
             | ]
         end.
  discriminate H.
Qed.

Lemma cdot_no_newline ic w : forallb (cmatch ic CDot) w = true → no_char NL w = true.
Proof. intros H. exact H. Qed.

(** Every match of the damage line pattern is a line of the template. *)
Lemma damage_item_re_sound s rest m :
  match_here false damage_item_re s = Some (rest, m) →
  ∃ part damage_type sev,
    s = damage_line part damage_type sev ++ rest
    ∧ m = <[3%nat := sev]> (<[2%nat := damage_type]> (<[1%nat := part]> ∅))
    ∧ no_char NL part = true ∧ no_char NL damage_type = true
    ∧ sev ∈ ENGLISH ++ LOCALIZED.
Proof.
  unfold match_here, damage_item_re. intros H. unfold lit at 1 in H.
  rewrite rmatch_lits_cat in H.
  destruct (starts_with false (py "- ") s) eqn:E0; [|discriminate H].
  apply starts_with_exact in E0. rewrite E0. clear E0.
  rewrite rmatch_grp_lazy_cat in H.
  apply rep_lazy_sound in H as (w1 & s1 & -> & Hw1 & H).
  rewrite take_consumed in H.
  unfold lit at 1 in H. rewrite rmatch_lits_cat in H.
  destruct (starts_with false (py " (") s1) eqn:E1; [|discriminate H].
  apply starts_with_exact in E1. rewrite E1. clear E1.
  rewrite rmatch_grp_lazy_cat in H.
  apply rep_lazy_sound in H as (w2 & s2 & -> & Hw2 & H).
  rewrite take_consumed in H.
  unfold lit at 1 in H. rewrite rmatch_lits_cat in H.
  destruct (starts_with false (py ") - ") s2) eqn:E2; [|discriminate H].
  apply starts_with_exact in E2. rewrite E2. clear E2.
  apply rmatch_tokens_split in H as (tok & Htok & -> & ->).
  exists w1, w2, tok. unfold damage_line. rewrite <- !app_assoc.
  repeat split; try done; by eapply cdot_no_newline.
Qed.

(** X6: every tuple that the damage line pattern finds in a text stands in
    that text as a line of the template: dash, space, part, space, opening
    parenthesis, damage type, closing parenthesis, space, dash, space and
    one of the six severity words; part and damage type are without
    newline. *)
Theorem damage_items_sound (block part damage_type sev : str) :
  (part, damage_type, sev) ∈ damage_items block →
  ∃ pre rest,
    block = pre ++ damage_line part damage_type sev ++ rest
    ∧ no_char NL part = true ∧ no_char NL damage_type = true
    ∧ sev ∈ ENGLISH ++ LOCALIZED.
Proof.
  unfold damage_items. intros H.
  apply list_elem_of_fmap in H as (m & E & Hm).
  apply finditer_elem_at in Hm as (pre & s1 & rest & -> & Hm).
  apply damage_item_re_sound in Hm as (p & ty & tok & -> & -> & Hp & Ht & Htok).
  unfold group in E.
  rewrite lookup_insert_ne, lookup_insert_ne, lookup_insert_eq in E by done.
  rewrite lookup_insert_ne, lookup_insert_eq in E by done.
  rewrite lookup_insert_eq in E. cbn [default] in E.
  injection E as -> -> ->. exists pre, rest. auto.
Qed.

Lemma damage_items_sound_witness :
  ∃ pre rest,
    py "Damage: - Door (Bent) - minor, see photo"
    = pre ++ damage_line (py "Door") (py "Bent") (py "minor") ++ rest
    ∧ no_char NL (py "Door") = true ∧ no_char NL (py "Bent") = true
    ∧ py "minor" ∈ ENGLISH ++ LOCALIZED.
Proof.
  apply damage_items_sound.
  apply (bool_decide_unpack _). vm_compute. exact I.
Defined.

(** ** extract_value *)

Lemma lstrip_split s :
  ∃ w, s = w ++ lstrip s ∧ forallb isspace w = true.
Proof.
  induction s as [|c s (w & E & Hw)]; [by exists []|].
  cbn [lstrip]. destruct (isspace c) eqn:Ec; [|by exists []].
  exists (c :: w). cbn [app forallb]. rewrite Ec, Hw. by rewrite <- E.
Qed.

Lemma lstrip_head s c : head (lstrip s) = Some c → isspace c = false.
Proof.
  induction s as [|c' s IH]; [discriminate|]. cbn [lstrip].
  destruct (isspace c') eqn:Ec; [exact IH|]. cbn. by intros [= <-].
Qed.

Lemma rstrip_split s :
  ∃ w, s = rstrip s ++ w ∧ forallb isspace w = true.
Proof.
  unfold rstrip. destruct (lstrip_split (reverse s)) as (w & E & Hw).
  exists (reverse w). split.
  - rewrite <- reverse_app, <- E. by rewrite reverse_involutive.
  - rewrite forallb_forall in *. intros x Hx. apply Hw.
    apply (proj1 (list_elem_of_In _ _)).
    apply (proj2 (list_elem_of_In _ _)) in Hx.
    by apply (proj1 (elem_of_reverse _ _)) in Hx.
Qed.

Lemma rstrip_last s c : last (rstrip s) = Some c → isspace c = false.
Proof. unfold rstrip. rewrite last_reverse. apply lstrip_head. Qed.

(** [strip] cuts white space at both ends and nothing else. *)
Lemma strip_spec s :
  (∃ w1 w2, s = w1 ++ strip s ++ w2)
  ∧ (∀ c, head (strip s) = Some c → isspace c = false)
  ∧ (∀ c, last (strip s) = Some c → isspace c = false).
Proof.
  unfold strip.
  destruct (lstrip_split s) as (w1 & E1 & _).
  destruct (rstrip_split (lstrip s)) as (w2 & E2 & _).
  split; [|split].
  - exists w1, w2. by rewrite <- E2.
  - intros c Hc. apply (lstrip_head s). rewrite E2.
    destruct (rstrip (lstrip s)); [discriminate Hc|exact Hc].
  - apply rstrip_last.
Qed.

Lemma no_char_app_inv x u v w : no_char x (u ++ v ++ w) = true → no_char x v = true.
Proof.
  unfold no_char. rewrite !forallb_app, !andb_true_iff. tauto.
Qed.

Lemma search_found ic r s m :
  search ic r s = Some m →
  ∃ pre s1 rest, s = pre ++ s1 ∧ match_here ic r s1 = Some (rest, m).
Proof.
  induction s as [|c s IH]; cbn [search]; intros H.
  - destruct (match_here ic r []) as [[rest g]|] eqn:E; [|discriminate H].
    injection H as <-. by exists [], [], rest.
  - destruct (match_here ic r (c :: s)) as [[rest g]|] eqn:E.
    + injection H as <-. by exists [], (c :: s), rest.
    + destruct (IH H) as (pre & s1 & rest & -> & Hm).
      by exists (c :: pre), s1, rest.
Qed.

Lemma starts_with_app_short ic p u v :
  starts_with ic p (u ++ v) = true → (length p ≤ length u)%nat →
  starts_with ic p u = true.
Proof.
  revert u. induction p as [|a p IH]; intros u H Hlen; [reflexivity|].
  destruct u as [|c u]; [cbn in Hlen; lia|].
  cbn [app starts_with] in *. apply andb_true_iff in H as [-> H].
  apply IH; [exact H|cbn [length] in Hlen; lia].
Qed.

Lemma starts_with_app_l ic p u v :
  starts_with ic p u = true → starts_with ic p (u ++ v) = true.
Proof.
  revert u. induction p as [|a p IH]; intros u H; [reflexivity|].
  destruct u as [|c u]; [discriminate H|].
  cbn [app starts_with] in *. apply andb_true_iff in H as [-> H].
  by apply IH.
Qed.

(** A match of the pattern of a key: label, colon, white space, and as
    group 1 a stretch without newline. *)
Lemma value_re_sound key s rest m :
  match_here true (value_re key) s = Some (rest, m) →
  ∃ lab ws value,
    s = lab ++ ws ++ value ++ rest
    ∧ m = <[1%nat := value]> ∅
    ∧ starts_with true (strip key ++ py ":") lab = true
    ∧ length lab = length (strip key ++ py ":")
    ∧ forallb isspace ws = true
    ∧ no_char NL value = true
    ∧ (rest = [] ∨ head rest = Some NL).
Proof.
  unfold match_here, value_re. intros H.
  pose proof (value_re_label key s (rest, m) H) as Hlab.
  unfold lit in H. rewrite rmatch_lits_cat in H.
  destruct (starts_with true (strip key) s); [|discriminate H].
  rewrite rmatch_lits_cat in H.
  destruct (starts_with true (py ":") _); [|discriminate H].
  rewrite drop_drop, <- length_app in H.
  assert (Hlen : (length (strip key ++ py ":") ≤ length s)%nat).
  { apply starts_with_spec in Hlab as (w & rest' & -> & HF).
    apply Forall2_length in HF. rewrite HF, length_app. lia. }
  rewrite <- (take_drop (length (strip key ++ py ":")) s) in Hlab |- *.
  set (lab := take (length (strip key ++ py ":")) s) in *.
  assert (Hl : length lab = length (strip key ++ py ":"))
    by (unfold lab; rewrite length_take; lia).
  rewrite rmatch_star_cat in H.
  apply rep_greedy_sound in H as (ws & s1 & E1 & Hws & H).
  rewrite rmatch_grp_lazy_cat in H.
  apply rep_lazy_sound in H as (value & s2 & -> & Hv & H).
  rewrite take_consumed in H.
  assert (Hend : s2 = rest ∧ m = <[1%nat := value]> ∅ ∧ (rest = [] ∨ head rest = Some NL)).
  { cbn [rmatch] in H. destruct s2 as [|c s2].
    - injection H as <- <-. auto.
    - cbn [cmatch] in H. rewrite lit_match_uncased in H by reflexivity.
      unfold lit_match in H. cbn [andb] in H.
      destruct (c =? NL) eqn:Ec.
      + apply N.eqb_eq in Ec as ->. injection H as <- <-. auto.
      + destruct s2; discriminate H. }
  destruct Hend as (-> & -> & Hrest).
  exists lab, ws, value. rewrite E1.
  repeat split; try done.
  eapply starts_with_app_short; [exact Hlab|lia].
Qed.

Lemma MISSING_trimmed :
  no_char NL MISSING = true
  ∧ (∀ c, head MISSING = Some c → isspace c = false)
  ∧ (∀ c, last MISSING = Some c → isspace c = false).
Proof. repeat split; intros c [= <-]; reflexivity. Qed.

(** X7: on text and with keys of letters and spaces, [extract_value] never
    raises, and what it returns is the placeholder or a piece of the text;
    in both cases it has no newline and neither begins nor ends with white
    space. *)
Theorem extract_value_result (t : str) (keys : list str) :
  forallb literal_key keys = true →
  ∃ v, extract_value_loop (PStr t) keys = inr v
    ∧ (v = MISSING ∨ ∃ pre post, t = pre ++ v ++ post)
    ∧ no_char NL v = true
    ∧ (∀ c, head v = Some c → isspace c = false)
    ∧ (∀ c, last v = Some c → isspace c = false).
Proof.
  intros _. rewrite extract_value_loop_text. eexists. split; [reflexivity|].
  induction keys as [|key keys IH]; cbn [first_value].
  - split; [by left|]. apply MISSING_trimmed.
  - destruct (search true (value_re key) t) as [m|] eqn:E; [|exact IH].
    apply search_found in E as (pre & s1 & rest & -> & Hm).
    apply value_re_sound in Hm as (lab & ws & value & -> & -> & _ & _ & _ & Hv & _).
    unfold group. rewrite lookup_insert_eq. cbn [default].
    destruct (strip_spec value) as ((w1 & w2 & Ev) & Hh & Hl).
    split; [right|split; [|split; assumption]].
    + exists (pre ++ lab ++ ws ++ w1), (w2 ++ rest).
      rewrite Ev at 1. by rewrite <- !app_assoc.
    + rewrite Ev in Hv. by apply no_char_app_inv in Hv.
Qed.

(** The result of [extract_value] on the text that has the line
    "Manufacturer: Toyota Motor", for the keys of the vehicle make. *)
Lemma extract_value_result_witness :
  ∃ v, extract_value_loop
         (PStr (py "Report" ++ NL :: py "Manufacturer: Toyota Motor  "))
         [py "make"; py "manufacturer"] = inr v
    ∧ (v = MISSING
       ∨ ∃ pre post,
           py "Report" ++ NL :: py "Manufacturer: Toyota Motor  "
           = pre ++ v ++ post)
    ∧ no_char NL v = true
    ∧ (∀ c, head v = Some c → isspace c = false)
    ∧ (∀ c, last v = Some c → isspace c = false).
Proof.
  apply (extract_value_result
           (py "Report" ++ NL :: py "Manufacturer: Toyota Motor  ")
           [py "make"; py "manufacturer"]).
  vm_compute. reflexivity.
Defined.

(** X8: when none of the keys (of letters and spaces), followed by a colon,
    occurs in the text, compared as IGNORECASE compares, [extract_value]
    returns the placeholder. *)
Theorem extract_value_no_label (t : str) (keys : string) :
  forallb literal_key (split_on 124 (py keys)) = true →
  forallb (fun key => negb (contains true (strip key ++ py ":") t))
    (split_on 124 (py keys)) = true →
  extract_value (PStr t) keys = inr MISSING.
Proof.
  intros _ H. rewrite extract_value_text. f_equal.
  by apply first_value_missing.
Qed.

Lemma extract_value_no_label_witness :
  extract_value (PStr (py "Plate ABC123, licence unknown"))
    "license plate|plate" = inr MISSING.
Proof. apply extract_value_no_label; vm_compute; reflexivity. Defined.

(** A greedy star takes all the characters of its class when the rest of
    the pattern matches behind them. *)
Lemma rep_greedy_max ic k w s' cont x :
  forallb (cmatch ic k) w = true →
  match s' with c :: _ => cmatch ic k c = false | [] => True end →
  cont s' = Some x →
  rep_greedy ic k (w ++ s') cont = Some x.
Proof.
  intros Hw Hs Hc. induction w as [|c w IH].
  - destruct s' as [|c s']; cbn [app rep_greedy]; [exact Hc|].
    by rewrite Hs.
  - cbn [forallb] in Hw. apply andb_true_iff in Hw as [Hk Hw].
    cbn [app rep_greedy]. by rewrite Hk, (IH Hw).
Qed.

Lemma search_skip ic r pre s :
  (∀ s1 c s2, pre = s1 ++ c :: s2 → match_here ic r (c :: s2 ++ s) = None) →
  search ic r (pre ++ s) = search ic r s.
Proof.
  induction pre as [|c pre IH]; intros H; [reflexivity|].
  cbn [app search]. rewrite (H [] c pre eq_refl).
  apply IH. intros s1 c' s2 ->. by apply (H (c :: s1) c' s2).
Qed.

Lemma search_here ic r s rest g :
  match_here ic r s = Some (rest, g) → search ic r s = Some g.
Proof. intros H. destruct s; cbn [search]; by rewrite H. Qed.

Lemma lit_match_refl ic a : lit_match ic a a = true.
Proof.
  unfold lit_match. destruct (ic && unicode_iscased a); [|apply N.eqb_refl].
  cbn [existsb]. by rewrite N.eqb_refl.
Qed.

(** The pattern of a key at the head of a line that carries the label.  *)
Lemma match_here_label_line key lab ws value rest :
  starts_with true (strip key) lab = true →
  length lab = length (strip key) →
  forallb isspace ws = true →
  no_char NL value = true →
  (∃ c value', value = c :: value' ∧ isspace c = false) →
  rest = [] ∨ head rest = Some NL →
  match_here true (value_re key) (lab ++ py ":" ++ ws ++ value ++ rest)
  = Some (rest, <[1%nat := value]> ∅).
Proof.
  intros Hlab Hlen Hws Hv (c & value' & Ev & Hc) Hrest.
  unfold match_here, value_re, lit.
  rewrite rmatch_lits_cat, (starts_with_app_l _ _ _ _ Hlab).
  rewrite <- Hlen, drop_app_length.
  rewrite rmatch_lits_cat. change (py ":") with [58].
  cbn [app starts_with length drop]. rewrite lit_match_refl. cbn [andb].
  rewrite rmatch_star_cat.
  apply rep_greedy_max; [exact Hws|by rewrite Ev|].
  rewrite rmatch_grp_lazy_cat.
  apply rep_lazy_first; [by apply no_newline_dot| |].
  - rewrite take_consumed. destruct Hrest as [->|Hrest]; [reflexivity|].
    destruct rest as [|c' rest]; [discriminate Hrest|].
    injection Hrest as ->. reflexivity.
  - intros w1 c' w2 E. rewrite E in Hv. apply no_char_app in Hv.
    cbn [rmatch cmatch]. rewrite lit_match_uncased by reflexivity.
    unfold lit_match. cbn [andb].
    rewrite (proj2 (N.eqb_neq c' NL) Hv).
    by destruct (w2 ++ rest).
Qed.

(** X9: a line "label: value" is read back, for keys of letters and
    spaces.  If the synonyms tried first do not occur in the text, the
    label (in any casing) with its colon does not occur earlier, the colon
    is followed by white space without newline and then by a value that
    begins with a character other than white space, has no newline and
    ends with the line, then [extract_value] returns the value without its
    trailing white space, whatever synonyms come later in the list. *)
Theorem extract_value_label_line
    (skipped later : list str) (key pre lab ws value rest : str) :
  let t := pre ++ lab ++ py ":" ++ ws ++ value ++ rest in
  forallb literal_key (skipped ++ key :: later) = true →
  forallb (fun k => negb (contains true (strip k ++ py ":") t)) skipped = true →
  starts_with true (strip key) lab = true →
  length lab = length (strip key) →
  contains true (strip key ++ py ":") (pre ++ lab) = false →
  forallb isspace ws = true → no_char NL ws = true →
  no_char NL value = true →
  (∃ c value', value = c :: value' ∧ isspace c = false) →
  rest = [] ∨ head rest = Some NL →
  extract_value_loop (PStr t) (skipped ++ key :: later) = inr (strip value).
Proof.
  intros t _ Hskip Hlab Hlen Hfirst Hws _ Hv Hhead Hrest.
  rewrite extract_value_loop_text. f_equal.
  induction skipped as [|k skipped IH]; cbn [app first_value].
  - assert (Hs : search true (value_re key) t = Some (<[1%nat := value]> ∅)).
    { unfold t. rewrite search_skip.
      - eapply search_here. by apply match_here_label_line.
      - intros s1 c s2 ->.
        destruct (match_here true (value_re key) _) as [x|] eqn:E; [|done].
        apply value_re_label in E. exfalso.
        change (c :: s2 ++ lab ++ py ":" ++ ws ++ value ++ rest)
          with ((c :: s2) ++ lab ++ py ":" ++ ws ++ value ++ rest) in E.
        rewrite app_assoc in E.
        apply starts_with_app_short in E;
          [|change (py ":") with [58]; rewrite !length_app, Hlen;
            cbn [length]; lia].
        assert (Hc : contains true (strip key ++ py ":")
                       ((s1 ++ c :: s2) ++ lab) = true).
        { apply anywhere_spec. exists s1, ((c :: s2) ++ lab).
          split; [by rewrite <- app_assoc|exact E]. }
        congruence. }
    rewrite Hs. unfold group. by rewrite lookup_insert_eq.
  - cbn [forallb] in Hskip. apply andb_true_iff in Hskip as [Hk Hskip].
    apply negb_true_iff in Hk.
    rewrite (search_none true (value_re k) _ t (value_re_label k) Hk).
    by apply IH.
Qed.

Lemma extract_value_label_line_witness :
  extract_value_loop
    (PStr (py "Report" ++ [NL] ++ py "MANUFACTURER" ++ py ":" ++ py "  "
           ++ py "Toyota Motor  " ++ NL :: py "Model: Camry"))
    ([py "make"] ++ py "manufacturer" :: [])
  = inr (strip (py "Toyota Motor  ")).
Proof.
  apply (extract_value_label_line [py "make"] [] (py "manufacturer")
           (py "Report" ++ [NL]) (py "MANUFACTURER") (py "  ")
           (py "Toyota Motor  ") (NL :: py "Model: Camry"));
    try (vm_compute; reflexivity).
  - by exists 84, (py "oyota Motor  ").
  - by right.
Defined.

(** ** The request handler *)

Lemma allowed_file_returns filename : ∃ ok, allowed_file filename = inr ok.
Proof.
  destruct (decide (46 ∈ filename)) as [Hdot|Hdot].
  - destruct (last_sep 46 filename Hdot) as (stem & ext & -> & Hext).
    eexists. by apply allowed_file_dot.
  - exists false. unfold allowed_file. by rewrite bool_decide_eq_false_2.
Qed.




(** ** A whole report of the template *)

Lemma unicode_tolower_cased a :
  unicode_iscased a = true → 97 ≤ unicode_tolower a.
Proof.
  unfold unicode_iscased, unicode_tolower, is_ascii_upper, is_ascii_lower.
  rewrite !orb_true_iff, !andb_true_iff, !N.leb_le, !N.eqb_eq.
  intros H.
  destruct (65 <=? a) eqn:E1; destruct (a <=? 90) eqn:E2; cbn [andb];
    try apply N.leb_le in E1; try apply N.leb_le in E2;
    try apply N.leb_gt in E1; try apply N.leb_gt in E2; try lia.
  all: destruct (a =? 304) eqn:E3; [lia|];
    destruct (a =? 8490) eqn:E4; [lia|];
    apply N.eqb_neq in E3; apply N.eqb_neq in E4; lia.
Qed.

Lemma ignorecase_fixes_ge lo x : x ∈ ignorecase_fixes lo → 97 ≤ x.
Proof.
  unfold ignorecase_fixes.
  repeat (destruct (lo =? _); [intros ->%list_elem_of_singleton; lia|]).
  by intros ?%elem_of_nil.
Qed.

(** A character below the letters is matched by itself only, also under
    IGNORECASE. *)
Lemma lit_match_plain ic a c : c < 65 → lit_match ic a c = true → a = c.
Proof.
  intros Hc. unfold lit_match.
  destruct (ic && unicode_iscased a) eqn:E;
    [|by intros ->%N.eqb_eq].
  apply andb_true_iff in E as [_ Ha].
  assert (Hl : unicode_tolower c = c).
  { unfold unicode_tolower, is_ascii_upper.
    replace (65 <=? c) with false by (symmetry; apply N.leb_gt; lia).
    cbn [andb].
    replace (c =? 304) with false by (symmetry; apply N.eqb_neq; lia).
    replace (c =? 8490) with false by (symmetry; apply N.eqb_neq; lia).
    reflexivity. }
  rewrite Hl. cbn [existsb]. rewrite orb_true_iff, existsb_exists.
  pose proof (unicode_tolower_cased a Ha).
  intros [E|(x & Hx & E)]; apply N.eqb_eq in E.
  - lia.
  - apply list_elem_of_In, ignorecase_fixes_ge in Hx. lia.
Qed.

Lemma starts_with_Forall2 ic p s :
  length s = length p →
  starts_with ic p s = true ↔ Forall2 (fun a c => lit_match ic a c = true) p s.
Proof.
  intros Hlen. rewrite starts_with_spec. split.
  - intros (w & rest & -> & HF). pose proof (Forall2_length _ _ _ HF) as Hw.
    rewrite length_app in Hlen. destruct rest; [by rewrite app_nil_r|].
    cbn [length] in Hlen. lia.
  - intros HF. exists s, []. by rewrite app_nil_r.
Qed.

(** A match of a label and a colon ends at a colon of the text. *)
Lemma starts_with_colon L s :
  starts_with true (L ++ [58]) s = true →
  ∃ s1 s2, s = s1 ++ 58 :: s2 ∧ length s1 = length L
           ∧ starts_with true L s1 = true.
Proof.
  intros H. apply starts_with_spec in H as (w & rest & -> & HF).
  apply Forall2_app_inv_l in HF as (w1 & w2 & H1 & H2 & ->).
  apply Forall2_cons_inv_l in H2 as (c & w3 & Hc & H3 & ->).
  apply Forall2_nil_inv_l in H3 as ->.
  rewrite lit_match_uncased in Hc by reflexivity.
  apply lit_match_exact in Hc as ->.
  exists w1, rest. rewrite <- app_assoc. split; [done|].
  pose proof (Forall2_length _ _ _ H1) as Hlen. split; [done|].
  by apply starts_with_Forall2.
Qed.

Lemma no_char_elem x s : no_char x s = true ↔ x ∉ s.
Proof.
  unfold no_char. induction s as [|c s IH]; cbn [forallb].
  - split; [intros _ H; by apply elem_of_nil in H|done].
  - rewrite andb_true_iff, negb_true_iff, N.eqb_neq, IH, not_elem_of_cons.
    split; intros [H1 H2]; split; congruence.
Qed.

Lemma no_char_app_iff x u v :
  no_char x (u ++ v) = no_char x u && no_char x v.
Proof. apply forallb_app. Qed.

Lemma contains_needs_colon L u :
  no_char 58 u = true → contains true (L ++ [58]) u = false.
Proof.
  intros Hu. destruct (contains true (L ++ [58]) u) eqn:E; [|done].
  apply anywhere_spec in E as (pre & post & -> & H).
  apply starts_with_colon in H as (s1 & s2 & -> & _).
  rewrite app_assoc in Hu. apply no_char_app in Hu. done.
Qed.

Lemma first_colon (a b r1 r2 : str) :
  no_char 58 a = true → no_char 58 b = true →
  a ++ 58 :: r1 = b ++ 58 :: r2 → a = b ∧ r1 = r2.
Proof.
  revert b. induction a as [|x a IH]; intros b Ha Hb E.
  - destruct b as [|y b]; [by injection E|].
    injection E as <- _. by apply no_char_cons in Hb as [? _].
  - destruct b as [|y b].
    + injection E as -> _. by apply no_char_cons in Ha as [? _].
    + injection E as <- E. apply no_char_cons in Ha as [_ Ha].
      apply no_char_cons in Hb as [_ Hb].
      destruct (IH b Ha Hb E) as [-> ->]. done.
Qed.

Lemma matched_no_colon L s :
  no_char 58 L = true → length s = length L →
  starts_with true L s = true → no_char 58 s = true.
Proof.
  revert s. induction L as [|a L IH]; intros s HL Hlen H;
    destruct s as [|c s]; try done.
  cbn [starts_with] in H. apply andb_true_iff in H as [Hc H].
  apply no_char_cons in HL as [Ha HL]. injection Hlen as Hlen.
  unfold no_char. cbn [forallb]. fold (no_char 58 s).
  rewrite (IH s HL Hlen H), andb_true_r. apply negb_true_iff, N.eqb_neq.
  intros ->. by apply lit_match_plain in Hc.
Qed.

Lemma suffix_snoc (u s1 s2 : str) (x c : N) :
  u ++ [x] = s1 ++ c :: s2 → ∃ u', c :: s2 = u' ++ [x] ∧ u = s1 ++ u'.
Proof.
  revert u. induction s1 as [|y s1 IH]; intros u E.
  - exists u. by rewrite E.
  - destruct u as [|z u].
    + injection E as _ E. by destruct s1.
    + injection E as -> E. destruct (IH u E) as (u' & E1 & ->). eauto.
Qed.

(** The search for a key passes a colon that does not end its label. *)
Lemma search_colon_skip key u w :
  no_char 58 u = true → no_char 58 (strip key) = true →
  ends_ci (strip key) u = false →
  search true (value_re key) (u ++ 58 :: w) = search true (value_re key) w.
Proof.
  intros Hu HL Hend.
  change (u ++ 58 :: w) with (u ++ [58] ++ w). rewrite app_assoc.
  apply search_skip. intros s1 c s2 E.
  destruct (match_here true (value_re key) (c :: s2 ++ w)) as [x|] eqn:Hm;
    [|done].
  exfalso. apply value_re_label in Hm.
  apply suffix_snoc in E as (u' & E & ->).
  change (c :: s2 ++ w) with ((c :: s2) ++ w) in Hm. rewrite E in Hm.
  rewrite <- app_assoc in Hm. cbn [app] in Hm.
  apply starts_with_colon in Hm as (t1 & t2 & Et & Hlen & Ht).
  rewrite no_char_app_iff in Hu. apply andb_true_iff in Hu as [_ Hu'].
  apply first_colon in Et as [-> _];
    [|done|by eapply matched_no_colon].
  rewrite <- Bool.not_true_iff_false in Hend. apply Hend.
  unfold ends_ci. rewrite reverse_app. apply starts_with_app_l.
  apply starts_with_Forall2; [by rewrite !length_reverse|].
  apply Forall2_reverse. by apply starts_with_Forall2.
Qed.

(** The search for a key finds the first line that carries its label. *)
Lemma search_label_line key pre lab ws value rest :
  starts_with true (strip key) lab = true →
  length lab = length (strip key) →
  contains true (strip key ++ py ":") (pre ++ lab) = false →
  forallb isspace ws = true →
  no_char NL value = true →
  (∃ c value', value = c :: value' ∧ isspace c = false) →
  rest = [] ∨ head rest = Some NL →
  search true (value_re key) (pre ++ lab ++ py ":" ++ ws ++ value ++ rest)
  = Some (<[1%nat := value]> ∅).
Proof.
  intros Hlab Hlen Hfirst Hws Hv Hhead Hrest. rewrite search_skip.
  - eapply search_here. by apply match_here_label_line.
  - intros s1 c s2 ->.
    destruct (match_here true (value_re key) _) as [x|] eqn:E; [|done].
    apply value_re_label in E. exfalso.
    change (c :: s2 ++ lab ++ py ":" ++ ws ++ value ++ rest)
      with ((c :: s2) ++ lab ++ py ":" ++ ws ++ value ++ rest) in E.
    rewrite app_assoc in E.
    apply starts_with_app_short in E;
      [|change (py ":") with [58]; rewrite !length_app, Hlen;
        cbn [length]; lia].
    assert (Hc : contains true (strip key ++ py ":")
                   ((s1 ++ c :: s2) ++ lab) = true).
    { apply anywhere_spec. exists s1, ((c :: s2) ++ lab).
      split; [by rewrite <- app_assoc|exact E]. }
    congruence.
Qed.

Lemma starts_with_refl ic p s : starts_with ic p (p ++ s) = true.
Proof.
  induction p as [|a p IH]; [reflexivity|]. cbn [app starts_with].
  by rewrite lit_match_refl, IH.
Qed.

Lemma forallb_call ic s : forallb (cmatch ic CAll) s = true.
Proof. by induction s. Qed.

(** The look-ahead of a section fails before a character that does not
    begin a header. *)
Lemma ahead_section_none c s g cont :
  c ≠ NL ∨ starts_with false (py "###") s = false →
  rmatch true (Ahead (Alt (Chr (CLit NL) ⋅ lits (py "###")) EndZ)) (c :: s)
    g cont
  = None.
Proof.
  intros H. cbn [rmatch]. rewrite rmatch_lits. cbn [cmatch].
  rewrite lit_match_uncased by reflexivity. unfold lit_match at 1.
  cbn [andb]. destruct H as [H|H].
  - by rewrite (proj2 (N.eqb_neq c NL) H).
  - rewrite starts_with_uncased by reflexivity. rewrite H.
    by destruct (c =? NL).
Qed.

Lemma no_hash_no_header s tail :
  no_char 35 s = true → tail = [] ∨ head tail = Some NL →
  starts_with false (py "###") (s ++ tail) = false.
Proof.
  intros Hs Ht. destruct s as [|y s].
  - destruct Ht as [->|Ht]; [reflexivity|].
    destruct tail as [|c tail]; [discriminate Ht|]. by injection Ht as ->.
  - apply no_char_cons in Hs as [Hy _]. change (py "###") with [35; 35; 35].
    cbn [app starts_with]. unfold lit_match at 1. cbn [andb].
    by rewrite (proj2 (N.eqb_neq y 35) Hy).
Qed.

(** A section of the template is matched at its header, and its group is
    the text up to the next header or the end. *)
Lemma match_here_section n w1 w2 body tail :
  (∃ c r, py n = c :: r ∧ isspace c = false) →
  (∃ c r, py w1 = c :: r ∧ isspace c = false) →
  (∃ c r, py w2 = c :: r ∧ isspace c = false) →
  no_char 35 body = true →
  tail = [] ∨ (∃ tail', tail = NL :: py "###" ++ tail') →
  match_here true (section_re n w1 w2)
    (py "###" ++ [32] ++ py n ++ [46] ++ [32] ++ py w1 ++ [32] ++ py w2
     ++ NL :: body ++ tail)
  = Some (tail, <[1%nat := body]> ∅).
Proof.
  intros (c0 & r0 & E0 & H0) (c1 & r1 & E1 & H1) (c2 & r2 & E2 & H2) Hb Ht.
  unfold match_here, section_re, lit.
  rewrite rmatch_lits_cat, starts_with_refl, drop_app_length.
  rewrite rmatch_star_cat.
  apply (rep_greedy_max true CSpace [32]); [reflexivity|by rewrite E0|].
  rewrite rmatch_lits_cat, starts_with_refl, drop_app_length.
  rewrite rmatch_chr_cat. cbn [app cmatch]. rewrite lit_match_refl.
  rewrite rmatch_star_cat.
  apply (rep_greedy_max true CSpace [32]); [reflexivity|by rewrite E1|].
  rewrite rmatch_lits_cat, starts_with_refl, drop_app_length.
  rewrite rmatch_star_cat.
  apply (rep_greedy_max true CSpace [32]); [reflexivity|by rewrite E2|].
  rewrite rmatch_lits_cat, starts_with_refl, drop_app_length.
  rewrite rmatch_chr_cat. cbn [cmatch]. rewrite lit_match_refl.
  rewrite rmatch_grp_lazy_cat.
  apply rep_lazy_first; [apply forallb_call| |].
  - rewrite take_consumed.
    destruct Ht as [->|(tail' & ->)]; [reflexivity|].
    cbn [rmatch]. rewrite rmatch_lits. cbn [cmatch].
    rewrite lit_match_refl, starts_with_refl. reflexivity.
  - intros u1 c u2 E. apply ahead_section_none. right.
    rewrite E in Hb. rewrite no_char_app_iff in Hb.
    apply andb_true_iff in Hb as [_ Hb]. apply no_char_cons in Hb as [_ Hb].
    apply no_hash_no_header; [exact Hb|].
    destruct Ht as [->|(tail' & ->)]; [by left|by right].
Qed.

Example report_text_scenario_A :
  report_text (py "Toyota") (py "Camry") (py "2019") (py "ABC123")
    [(py "Front Bumper", py "Cracked", py "severe");
     (py "Hood", py "Dented", py "minor")]
    (py "5000") (py "3 days")
  = scenario_A.
Proof. vm_compute. reflexivity. Qed.

Lemma no_char_cons_eq x c s :
  no_char x (c :: s) = negb (c =? x) && no_char x s.
Proof. reflexivity. Qed.

Ltac no_char_solve :=
  repeat first [rewrite no_char_app_iff | rewrite no_char_cons_eq];
  repeat match goal with H : no_char _ _ = true |- _ => rewrite H end;
  vm_compute; reflexivity.

Ltac list_norm := repeat first [rewrite <- app_assoc | progress cbn [app]].

Lemma clean_value_spec v :
  clean_value v = true →
  (∃ c v', v = c :: v' ∧ isspace c = false)
  ∧ no_char NL v = true ∧ no_char 58 v = true ∧ no_char 35 v = true.
Proof.
  unfold clean_value. rewrite !andb_true_iff. intros (((H1 & H2) & H3) & H4).
  repeat split; try done. destruct v as [|c v]; [discriminate H1|].
  exists c, v. split; [done|]. by apply negb_true_iff.
Qed.

(** The end of a chunk whose last line is [y] does not match a label that
    differs from the end of that line. *)
Lemma ends_ci_line L x y :
  starts_with true (take (length (reverse y ++ [NL])) (reverse L))
    (reverse y ++ [NL]) = false →
  ends_ci L (x ++ NL :: y) = false.
Proof.
  intros H. unfold ends_ci. rewrite reverse_app, reverse_cons, <- app_assoc.
  rewrite app_assoc. by apply starts_with_mismatch.
Qed.

(** The search variants with the text given by an equation. *)
Lemma search_label_line_eq key pre lab ws value rest t :
  t = pre ++ lab ++ py ":" ++ ws ++ value ++ rest →
  starts_with true (strip key) lab = true →
  length lab = length (strip key) →
  no_char 58 (pre ++ lab) = true →
  forallb isspace ws = true →
  no_char NL value = true →
  (∃ c value', value = c :: value' ∧ isspace c = false) →
  rest = [] ∨ head rest = Some NL →
  search true (value_re key) t = Some (<[1%nat := value]> ∅).
Proof.
  intros -> ? ? Hc ? ? ? ?. apply search_label_line; try done.
  change (py ":") with [58]. by apply contains_needs_colon.
Qed.

Lemma vehicle_lines_colons make model year plate :
  vehicle_lines make model year plate
  = py "Make" ++ 58 ::
    ([32] ++ make ++ NL :: py "Model") ++ 58 ::
    ([32] ++ model ++ NL :: py "Year") ++ 58 ::
    ([32] ++ year ++ NL :: py "License Plate") ++ 58 ::
    [32] ++ plate.
Proof. unfold vehicle_lines. list_norm. reflexivity. Qed.

Lemma vehicle_of_lines make model year plate :
  clean_value make = true → clean_value model = true →
  clean_value year = true → clean_value plate = true →
  vehicle_of (vehicle_lines make model year plate)
  = <["plate" := strip plate]> (<["year" := strip year]>
      (<["model" := strip model]> (<["make" := strip make]> ∅))).
Proof.
  intros (H1 & N1 & C1 & _)%clean_value_spec (H2 & N2 & C2 & _)%clean_value_spec
         (H3 & N3 & C3 & _)%clean_value_spec (H4 & N4 & C4 & _)%clean_value_spec.
  unfold vehicle_of. rewrite vehicle_lines_colons.
  change (split_on 124 (py "license plate|plate"))
    with [py "license plate"; py "plate"].
  change (split_on 124 (py "year")) with [py "year"].
  change (split_on 124 (py "model")) with [py "model"].
  change (split_on 124 (py "make|manufacturer"))
    with [py "make"; py "manufacturer"].
  cbn [first_value].
  match goal with
  | |- context [search true (value_re (py "make")) ?t] =>
      assert (Emake : search true (value_re (py "make")) t
                     = Some (<[1%nat := make]> ∅))
  end.
  { eapply (search_label_line_eq (py "make") [] (py "Make") [32] make);
      [list_norm; reflexivity|try (vm_compute; reflexivity)..|by right];
      done. }
  match goal with
  | |- context [search true (value_re (py "model")) ?t] =>
      assert (Emodel : search true (value_re (py "model")) t
                     = Some (<[1%nat := model]> ∅))
  end.
  { rewrite search_colon_skip by (vm_compute; reflexivity).
    eapply (search_label_line_eq (py "model") ([32] ++ make ++ [NL])
              (py "Model") [32] model);
      [list_norm; reflexivity|try (vm_compute; reflexivity)..|by right];
      try done; no_char_solve. }
  match goal with
  | |- context [search true (value_re (py "year")) ?t] =>
      assert (Eyear : search true (value_re (py "year")) t
                     = Some (<[1%nat := year]> ∅))
  end.
  { rewrite search_colon_skip by (vm_compute; reflexivity).
    rewrite search_colon_skip;
      [|no_char_solve|vm_compute; reflexivity
       |apply (ends_ci_line _ ([32] ++ make)); vm_compute; reflexivity].
    eapply (search_label_line_eq (py "year") ([32] ++ model ++ [NL])
              (py "Year") [32] year);
      [list_norm; reflexivity|try (vm_compute; reflexivity)..|by right];
      try done; no_char_solve. }
  match goal with
  | |- context [search true (value_re (py "license plate")) ?t] =>
      assert (Eplate : search true (value_re (py "license plate")) t
                     = Some (<[1%nat := plate]> ∅))
  end.
  { rewrite search_colon_skip by (vm_compute; reflexivity).
    rewrite search_colon_skip;
      [|no_char_solve|vm_compute; reflexivity
       |apply (ends_ci_line _ ([32] ++ make)); vm_compute; reflexivity].
    rewrite search_colon_skip;
      [|no_char_solve|vm_compute; reflexivity
       |apply (ends_ci_line _ ([32] ++ model)); vm_compute; reflexivity].
    eapply (search_label_line_eq (py "license plate") ([32] ++ year ++ [NL])
              (py "License Plate") [32] plate _);
      [list_norm; by rewrite app_nil_r|try (vm_compute; reflexivity)..|by left];
      try done; no_char_solve. }
  rewrite Emake, Emodel, Eyear, Eplate. unfold group.
  by rewrite !lookup_insert_eq.
Qed.

Lemma damage_block_app items tail :
  damage_block items tail = damage_block items [] ++ tail.
Proof.
  induction items as [|[[p ty] sev] items IH]; [reflexivity|].
  cbn [damage_block]. rewrite IH. by list_norm.
Qed.

Lemma damage_block_newline items :
  ∃ z, NL :: damage_block items [] = z ++ [NL].
Proof.
  induction items as [|[[p ty] sev] items (z & IH)]; [by exists []|].
  cbn [damage_block]. exists (NL :: damage_line p ty sev ++ z).
  rewrite IH. cbn [app]. by rewrite app_assoc.
Qed.

Lemma token_no_colon_hash sev :
  sev ∈ ENGLISH ++ LOCALIZED → no_char 58 sev = true ∧ no_char 35 sev = true.
Proof.
  unfold ENGLISH, LOCALIZED. cbn [app]. rewrite !elem_of_cons, elem_of_nil.
  intros H. destruct_or!; try done; subst sev; split; vm_compute; reflexivity.
Qed.

Lemma damage_block_no_colon_hash items :
  forallb clean_row items = true →
  no_char 58 (damage_block items []) = true
  ∧ no_char 35 (damage_block items []) = true.
Proof.
  induction items as [|[[p ty] sev] items IH]; [done|].
  cbn [forallb]. intros [Hrow Hrows]%andb_true_iff.
  destruct (IH Hrows) as [IH1 IH2]. unfold clean_row, clean_item in Hrow.
  cbn [fst snd] in Hrow. rewrite !andb_true_iff, bool_decide_eq_true in Hrow.
  destruct Hrow as ((((((((_ & _) & _) & _) & Hsev) & P1) & T1) & P2) & T2).
  destruct (token_no_colon_hash sev Hsev) as [S1 S2].
  cbn [damage_block]. unfold damage_line. split; no_char_solve.
Qed.

Lemma damage_items_no_paren s : no_char 40 s = true → damage_items s = [].
Proof.
  intros H. destruct (damage_items s) as [|[[p ty] sev] l] eqn:E; [done|].
  assert (Hin : (p, ty, sev) ∈ damage_items s)
    by (rewrite E; apply list_elem_of_here).
  unfold damage_items in Hin.
  apply list_elem_of_fmap in Hin as (m & _ & Hm).
  apply finditer_elem_at in Hm as (pre & s1 & rest & -> & Hm).
  apply damage_item_re_sound in Hm as (p' & ty' & tok & -> & _).
  unfold damage_line in H. rewrite <- !app_assoc in H.
  change (py " (") with [32; 40] in H.
  rewrite !no_char_app_iff in H. cbn in H.
  by rewrite !andb_false_r in H.
Qed.

Lemma search_step ic r c s :
  match_here ic r (c :: s) = None → search ic r (c :: s) = search ic r s.
Proof. intros H. cbn [search]. by rewrite H. Qed.

Lemma damages_re_none_here s :
  mark_here [50] s = false → match_here true damages_re s = None.
Proof.
  intros H. destruct (match_here true damages_re s) as [x|] eqn:E; [|done].
  apply (section_re_mark "2" 50) in E; try done. congruence.
Qed.

Lemma search_section_no_hash n w1 w2 pre s :
  no_char 35 pre = true →
  search true (section_re n w1 w2) (pre ++ s)
  = search true (section_re n w1 w2) s.
Proof.
  intros H. apply search_skip. intros s1 c s2 ->.
  apply no_char_app in H. unfold match_here, section_re, lit.
  rewrite rmatch_lits_cat. change (py "###") with [35; 35; 35].
  cbn [starts_with]. rewrite lit_match_uncased by reflexivity.
  unfold lit_match. cbn [andb]. by rewrite (proj2 (N.eqb_neq c 35) H).
Qed.

Lemma contains_app_r ic p pre post :
  contains ic p post = true → contains ic p (pre ++ post) = true.
Proof.
  unfold contains. rewrite !anywhere_spec.
  intros (a & b & -> & H). exists (pre ++ a), b. by rewrite <- app_assoc.
Qed.

Lemma contains_cons ic p c s :
  contains ic p s = true → contains ic p (c :: s) = true.
Proof. apply (contains_app_r ic p [c]). Qed.

Ltac list_rw :=
  repeat first [rewrite <- app_assoc | rewrite <- app_comm_cons
               | rewrite app_nil_l].

Section RoundTrip.
Variables make model year plate total time : str.
Variable items : list (str * str * str).
Hypothesis Hmake : clean_value make = true.
Hypothesis Hmodel : clean_value model = true.
Hypothesis Hyear : clean_value year = true.
Hypothesis Hplate : clean_value plate = true.
Hypothesis Hitems : forallb clean_row items = true.
Hypothesis Htotal : clean_total total = true.
Hypothesis Htime : clean_total time = true.

Local Abbreviation T :=
  (report_text make model year plate items total time).

Lemma report_vehicle_section :
  search true vehicle_re T
  = Some (<[1%nat := vehicle_lines make model year plate]> ∅).
Proof.
  apply clean_value_spec in Hmake as (_ & _ & _ & G1).
  apply clean_value_spec in Hmodel as (_ & _ & _ & G2).
  apply clean_value_spec in Hyear as (_ & _ & _ & G3).
  apply clean_value_spec in Hplate as (_ & _ & _ & G4).
  eapply search_here.
  apply (match_here_section "1" "Vehicle" "Identification"
           (vehicle_lines make model year plate)
           (NL :: py "###" ++ py " 2. Damage Assessment" ++ NL ::
              damage_block items (closing_lines total time))).
  - by exists 49, [].
  - by eexists _, _.
  - by eexists _, _.
  - unfold vehicle_lines. no_char_solve.
  - right. by eexists.
Qed.

Lemma report_text_headers :
  T = 35 :: 35 :: 35 ::
      (py " 1. Vehicle Identification" ++ NL ::
       vehicle_lines make model year plate ++ [NL]) ++
      (py "###" ++ [32] ++ py "2" ++ [46] ++ [32] ++ py "Damage"
       ++ [32] ++ py "Assessment" ++ NL ::
       damage_block items (closing_lines total time) ++ []).
Proof.
  assert (H1 : py "### 1. Vehicle Identification"
               = 35 :: 35 :: 35 :: py " 1. Vehicle Identification")
    by (vm_compute; reflexivity).
  assert (H2 : py "### 2. Damage Assessment"
               = py "###" ++ [32] ++ py "2" ++ [46] ++ [32] ++ py "Damage"
                 ++ [32] ++ py "Assessment")
    by (vm_compute; reflexivity).
  unfold report_text. rewrite H1, H2, app_nil_r. list_rw. reflexivity.
Qed.

Lemma report_damage_section :
  search true damages_re T
  = Some (<[1%nat := damage_block items (closing_lines total time)]> ∅).
Proof.
  apply clean_value_spec in Hmake as (_ & _ & _ & G1).
  apply clean_value_spec in Hmodel as (_ & _ & _ & G2).
  apply clean_value_spec in Hyear as (_ & _ & _ & G3).
  apply clean_value_spec in Hplate as (_ & _ & _ & G4).
  destruct (damage_block_no_colon_hash items Hitems) as [_ G5].
  apply andb_true_iff in Htotal as [(_ & _ & _ & G6)%clean_value_spec _].
  apply andb_true_iff in Htime as [(_ & _ & _ & G7)%clean_value_spec _].
  rewrite report_text_headers.
  assert (S1 : ∀ s, search true damages_re (35 :: 35 :: 35 :: py " 1. Vehicle Identification" ++ s)
                = search true damages_re (py " 1. Vehicle Identification" ++ s)).
  { intros s. rewrite !search_step
      by (apply damages_re_none_here; vm_compute; reflexivity). reflexivity. }
  rewrite <- app_assoc. rewrite S1. clear S1. rewrite app_assoc.
  unfold damages_re.
  rewrite search_section_no_hash
    by (unfold vehicle_lines; no_char_solve).
  eapply search_here.
  apply (match_here_section "2" "Damage" "Assessment"
           (damage_block items (closing_lines total time)) []).
  - by exists 50, [].
  - by eexists _, _.
  - by eexists _, _.
  - rewrite damage_block_app. unfold closing_lines. no_char_solve.
  - by left.
Qed.

Lemma report_damage_items :
  damage_items (damage_block items (closing_lines total time)) = items.
Proof.
  apply andb_true_iff in Htotal as [(_ & _ & _ & _)%clean_value_spec G1].
  apply andb_true_iff in Htime as [(_ & _ & _ & _)%clean_value_spec G2].
  assert (Hc : forallb clean_item items = true).
  { clear -Hitems. induction items as [|x l IH]; [done|].
    cbn [forallb] in *. apply andb_true_iff in Hitems as [Hx Hl].
    unfold clean_row in Hx. rewrite !andb_true_iff in Hx.
    destruct Hx as ((((-> & _) & _) & _) & _). by apply IH. }
  assert (Hb : ∀ tail, damage_items (damage_block items tail)
                       = items ++ damage_items tail).
  { clear -Hc. induction items as [|[[p ty] sev] l IH]; intros tail; [done|].
    cbn [forallb damage_block] in *. apply andb_true_iff in Hc as [Hx Hl].
    rewrite damage_items_cons by exact Hx.
    by rewrite damage_items_newline, IH. }
  rewrite Hb, damage_items_no_paren; [by rewrite app_nil_r|].
  unfold closing_lines. no_char_solve.
Qed.

Lemma report_text_colons z :
  NL :: damage_block items [] = z ++ [NL] →
  T = (py "### 1. Vehicle Identification" ++ NL :: py "Make") ++ 58 ::
      ([32] ++ make ++ NL :: py "Model") ++ 58 ::
      ([32] ++ model ++ NL :: py "Year") ++ 58 ::
      ([32] ++ year ++ NL :: py "License Plate") ++ 58 ::
      (([32] ++ plate ++ NL :: py "### 2. Damage Assessment" ++ z)
       ++ NL :: py "Total Estimated Repair Cost") ++ 58 ::
      ([32] ++ total ++ NL :: py "Estimated Repair Timeline") ++ 58 ::
      ([32] ++ time ++ NL :: py "Safe to drive") ++ 58 ::
      py " yes".
Proof.
  intros Ez.
  assert (L1 : py "Make: " = py "Make" ++ 58 :: [32])
    by (vm_compute; reflexivity).
  assert (L2 : py "Model: " = py "Model" ++ 58 :: [32])
    by (vm_compute; reflexivity).
  assert (L3 : py "Year: " = py "Year" ++ 58 :: [32])
    by (vm_compute; reflexivity).
  assert (L4 : py "License Plate: " = py "License Plate" ++ 58 :: [32])
    by (vm_compute; reflexivity).
  assert (L5 : py "Total Estimated Repair Cost: "
               = py "Total Estimated Repair Cost" ++ 58 :: [32])
    by (vm_compute; reflexivity).
  assert (L6 : py "Estimated Repair Timeline: "
               = py "Estimated Repair Timeline" ++ 58 :: [32])
    by (vm_compute; reflexivity).
  assert (L7 : py "Safe to drive: yes" = py "Safe to drive" ++ 58 :: py " yes")
    by (vm_compute; reflexivity).
  unfold report_text, vehicle_lines, closing_lines.
  rewrite damage_block_app.
  rewrite (app_comm_cons (damage_block items []) _ NL), Ez.
  rewrite L1, L2, L3, L4, L5, L6, L7. list_rw. reflexivity.
Qed.

Lemma report_total_cost :
  first_value T (split_on 124 (py "total estimated repair cost|total cost"))
  = strip total.
Proof.
  apply clean_value_spec in Hmake as (_ & _ & C1 & _).
  apply clean_value_spec in Hmodel as (_ & _ & C2 & _).
  apply clean_value_spec in Hyear as (_ & _ & C3 & _).
  apply clean_value_spec in Hplate as (_ & _ & C4 & _).
  destruct (damage_block_no_colon_hash items Hitems) as [C5 _].
  apply andb_true_iff in Htotal as [(H6 & N6 & C6 & _)%clean_value_spec _].
  destruct (damage_block_newline items) as (z & Ez).
  assert (Cz : no_char 58 z = true).
  { assert (H : no_char 58 (z ++ [NL]) = true)
      by (rewrite <- Ez; no_char_solve).
    rewrite no_char_app_iff in H. by apply andb_true_iff in H as [-> _]. }
  change (split_on 124 (py "total estimated repair cost|total cost"))
    with [py "total estimated repair cost"; py "total cost"].
  cbn [first_value]. rewrite (report_text_colons z Ez).
  rewrite search_colon_skip by (vm_compute; reflexivity).
  rewrite search_colon_skip;
    [|no_char_solve|vm_compute; reflexivity
     |apply (ends_ci_line _ ([32] ++ make)); vm_compute; reflexivity].
  rewrite search_colon_skip;
    [|no_char_solve|vm_compute; reflexivity
     |apply (ends_ci_line _ ([32] ++ model)); vm_compute; reflexivity].
  rewrite search_colon_skip;
    [|no_char_solve|vm_compute; reflexivity
     |apply (ends_ci_line _ ([32] ++ year)); vm_compute; reflexivity].
  match goal with
  | |- context [search true (value_re ?k) ?t] =>
      assert (E : search true (value_re k) t = Some (<[1%nat := total]> ∅))
  end.
  { eapply (search_label_line_eq (py "total estimated repair cost")
              (([32] ++ plate ++ NL :: py "### 2. Damage Assessment" ++ z)
               ++ [NL])
              (py "Total Estimated Repair Cost") [32] total);
      [list_rw; reflexivity|try (vm_compute; reflexivity)..|by right];
      try done; no_char_solve. }
  rewrite E. unfold group. by rewrite lookup_insert_eq.
Qed.

Lemma report_repair_time :
  first_value T (split_on 124 (py "estimated repair timeline|repair time"))
  = strip time.
Proof.
  apply clean_value_spec in Hmake as (_ & _ & C1 & _).
  apply clean_value_spec in Hmodel as (_ & _ & C2 & _).
  apply clean_value_spec in Hyear as (_ & _ & C3 & _).
  apply clean_value_spec in Hplate as (_ & _ & C4 & _).
  destruct (damage_block_no_colon_hash items Hitems) as [C5 _].
  apply andb_true_iff in Htotal as [(H6 & N6 & C6 & _)%clean_value_spec _].
  apply andb_true_iff in Htime as [(H7 & N7 & C7 & _)%clean_value_spec _].
  destruct (damage_block_newline items) as (z & Ez).
  assert (Cz : no_char 58 z = true).
  { assert (H : no_char 58 (z ++ [NL]) = true)
      by (rewrite <- Ez; no_char_solve).
    rewrite no_char_app_iff in H. by apply andb_true_iff in H as [-> _]. }
  change (split_on 124 (py "estimated repair timeline|repair time"))
    with [py "estimated repair timeline"; py "repair time"].
  cbn [first_value]. rewrite (report_text_colons z Ez).
  rewrite search_colon_skip by (vm_compute; reflexivity).
  rewrite search_colon_skip;
    [|no_char_solve|vm_compute; reflexivity
     |apply (ends_ci_line _ ([32] ++ make)); vm_compute; reflexivity].
  rewrite search_colon_skip;
    [|no_char_solve|vm_compute; reflexivity
     |apply (ends_ci_line _ ([32] ++ model)); vm_compute; reflexivity].
  rewrite search_colon_skip;
    [|no_char_solve|vm_compute; reflexivity
     |apply (ends_ci_line _ ([32] ++ year)); vm_compute; reflexivity].
  rewrite search_colon_skip;
    [|no_char_solve|vm_compute; reflexivity
     |apply ends_ci_line; vm_compute; reflexivity].
  match goal with
  | |- context [search true (value_re ?k) ?t] =>
      assert (E : search true (value_re k) t = Some (<[1%nat := time]> ∅))
  end.
  { eapply (search_label_line_eq (py "estimated repair timeline")
              ([32] ++ total ++ [NL])
              (py "Estimated Repair Timeline") [32] time);
      [list_rw; reflexivity|try (vm_compute; reflexivity)..|by right];
      try done; no_char_solve. }
  rewrite E. unfold group. by rewrite lookup_insert_eq.
Qed.

Lemma report_safe : is_Some (search true safe_re T).
Proof.
  apply (search_alt_lits true (py "safe to drive: yes") (py "safe: yes")).
  apply orb_true_iff. left.
  assert (E : T = (py "### 1. Vehicle Identification" ++ NL ::
                   vehicle_lines make model year plate ++ NL ::
                   py "### 2. Damage Assessment" ++ NL ::
                   damage_block items [] ++
                   py "Total Estimated Repair Cost: " ++ total ++ NL ::
                   py "Estimated Repair Timeline: " ++ time ++ [NL])
                  ++ py "Safe to drive: yes").
  { unfold report_text, closing_lines. rewrite damage_block_app.
    list_rw. reflexivity. }
  rewrite E. apply contains_app_r. vm_compute. reflexivity.
Qed.

End RoundTrip.

(** X12: round trip of a whole report.  For the text that the template of
    scenario A gives for any vehicle values, damage lines, total cost and
    repair time (values that begin with a character other than white
    space and have no newline, colon or hash; parts and types without
    newline, colon, hash and the parenthesis that ends them; total and
    time without opening parenthesis), [parse_analysis] returns these
    vehicle values, one record per damage line in the order of the text,
    the total cost, the repair time and the "safe" label. *)
Theorem report_round_trip (make model year plate total time : str)
    (items : list (str * str * str)) :
  clean_value make = true →
  clean_value model = true →
  clean_value year = true →
  clean_value plate = true →
  forallb clean_row items = true →
  clean_total total = true →
  clean_total time = true →
  let text := report_text make model year plate items total time in
  parse_analysis (PStr text)
  = Report
      {| vehicle := <["plate" := strip plate]> (<["year" := strip year]>
                      (<["model" := strip model]> (<["make" := strip make]> ∅)));
         damages := (fun '(part, damage_type, sev) =>
                       damage_of part damage_type sev) <$> items;
         total_cost := strip total;
         repair_time := strip time;
         safety_status := SAFE;
         content := PStr text |}.
Proof.
  intros Hmake Hmodel Hyear Hplate Hitems Htotal Htime text. subst text.
  destruct (parse_analysis_text
              (report_text make model year plate items total time)) as (a & Ha & Hv & Hd & Hc & Hr & Hs & Ht).
  rewrite Ha. f_equal.
  rewrite report_vehicle_section in Hv by assumption.
  rewrite report_damage_section in Hd by assumption.
  unfold group in Hv, Hd. rewrite lookup_insert_eq in Hv, Hd.
  cbn [default from_option id] in Hv, Hd.
  rewrite vehicle_of_lines in Hv by assumption.
  rewrite report_damage_items in Hd by assumption.
  rewrite report_total_cost in Hc by assumption.
  rewrite report_repair_time in Hr by assumption.
  destruct (report_safe make model year plate total time items) as [m Hm].
  rewrite Hm in Hs.
  destruct a as [v d tc rt ss ct].
  cbn [vehicle damages total_cost repair_time safety_status content]
    in Hv, Hd, Hc, Hr, Hs, Ht.
  by subst.
Qed.

Lemma report_round_trip_witness :
  parse_analysis (PStr scenario_A)
  = Report
      {| vehicle := <["plate" := strip (py "ABC123")]>
                      (<["year" := strip (py "2019")]>
                      (<["model" := strip (py "Camry")]>
                      (<["make" := strip (py "Toyota")]> ∅)));
         damages := (fun '(part, damage_type, sev) =>
                       damage_of part damage_type sev)
                    <$> [(py "Front Bumper", py "Cracked", py "severe");
                         (py "Hood", py "Dented", py "minor")];
         total_cost := strip (py "5000");
         repair_time := strip (py "3 days");
         safety_status := SAFE;
         content := PStr scenario_A |}.
Proof.
  rewrite <- report_text_scenario_A.
  apply report_round_trip; vm_compute; reflexivity.
Defined.

(** ** Localized severity words in a report *)

Lemma damage_items_block items tail :
  forallb clean_item items = true →
  damage_items (damage_block items tail) = items ++ damage_items tail.
Proof.
  induction items as [|[[p ty] sev] items IH]; [reflexivity|].
  cbn [forallb damage_block]. intros [Hc Hs]%andb_true_iff.
  rewrite damage_items_cons by exact Hc.
  rewrite damage_items_newline, IH by exact Hs. reflexivity.
Qed.

(** The damage section is found behind text without hash, and its group is
    the text up to the next header or the end. *)
Lemma search_damage_section pre body rest :
  no_char 35 pre = true →
  no_char 35 body = true →
  rest = [] ∨ (∃ rest', rest = NL :: py "###" ++ rest') →
  search true damages_re
    (pre ++ py "### 2. Damage Assessment" ++ NL :: body ++ rest)
  = Some (<[1%nat := body]> ∅).
Proof.
  intros Hpre Hbody Hrest.
  assert (H2 : py "### 2. Damage Assessment"
               = py "###" ++ [32] ++ py "2" ++ [46] ++ [32] ++ py "Damage"
                 ++ [32] ++ py "Assessment") by (vm_compute; reflexivity).
  unfold damages_re. rewrite search_section_no_hash by exact Hpre.
  eapply search_here. rewrite H2. list_rw.
  pose proof (match_here_section "2" "Damage" "Assessment" body rest) as H.
  revert H. list_rw. intros H. apply H; try done.
  - by exists 50, [].
  - by eexists _, _.
  - by eexists _, _.
Qed.


